(** * The moving average filter of [moving_average_filter.py]

    A shallow embedding of the class [MovingAverageFilter]: the ring
    buffer, its running sum, the one-sample and whole-array filters, the
    impulse response and the frequency response; and of what
    [create_test_signal] and the demonstrations compute with it.

    The class computes on [float] and [np.float64] values.  The methods
    are therefore written once, over an interface [Scalar] of the
    arithmetic they use, and read at two instances: the real numbers
    (exact arithmetic, in which the algebraic properties are proved) and
    binary64 (the arithmetic the interpreter runs, on which the methods
    are evaluated).

    The array handed to [filter_signal] is the caller's: it holds floats
    or integers, and [np.zeros_like] gives the returned array the same
    element type.  The arrays of the embedding therefore come with their
    element type, [Dtype]. *)

From Stdlib Require Import ZArith Reals Lra Lia.
From Stdlib Require PrimFloat Uint63 FloatOps SpecFloat.
From stdpp Require Import base list.

(** ** Python: exceptions and methods *)

(** The exceptions the class body can meet: [IndexError] from indexing
    an array out of range, [ZeroDivisionError] from [%] on integers,
    [ValueError] from NumPy and SciPy on a negative size. *)
Inductive exn : Set :=
  | IndexError
  | ZeroDivisionError
  | ValueError.

(** A call either returns or raises. *)
Inductive result (X : Type) : Type :=
  | Ok (x : X)
  | Raise (e : exn).
Arguments Ok {X} x.
Arguments Raise {X} e.

(** A method of an object with attributes [S]: it runs on the object,
    returns or raises, and leaves the object as its assignments made it.
    An exception keeps the assignments made before it was raised. *)
Definition method (S X : Type) : Type := S → result X * S.

#[global] Instance method_ret {S} : MRet (method S) :=
  λ X x self, (Ok x, self).

#[global] Instance method_bind {S} : MBind (method S) :=
  λ X Y k m self,
    match m self with
    | (Ok x, self') => k x self'
    | (Raise e, self') => (Raise e, self')
    end.

(** Read the object. *)
Definition get {S} : method S S := λ self, (Ok self, self).

(** The value of an expression that may raise. *)
Definition eval {S X} (r : result X) : method S X := λ self, (r, self).

(** ** The arithmetic of the samples *)

(** What the class does with sample values: the constants [0.0] and
    [1.0], [+], [-], [/], and the conversion of a Python [int] (the
    window size) that [/] applies to its right operand. *)
Class Scalar (A : Type) : Type := {
  zero : A;
  one : A;
  add : A → A → A;
  sub : A → A → A;
  div : A → A → A;
  of_int : Z → A
}.

(** Exact arithmetic. *)
#[global] Instance R_Scalar : Scalar R := {|
  zero := 0%R;
  one := 1%R;
  add := Rplus;
  sub := Rminus;
  div := Rdiv;
  of_int := IZR
|}.

(** The conversion of an integer to binary64, rounding to nearest
    (ties to even).  Below [2^63] it is the conversion of the machine
    integer.  From there on the integer is first cut to its 62 leading
    bits, the last of them set when a bit that was cut off is, which
    leaves the rounding as it was, and scaled back after the conversion;
    an integer beyond the range of binary64, which Python refuses to
    convert, gives infinity. *)
Definition float_of_Z (z : Z) : PrimFloat.float :=
  let of_pos (p : positive) :=
    if (Zpos p <? 2 ^ 63)%Z then PrimFloat.of_uint63 (Uint63.of_Z (Zpos p))
    else
      let k := (Z.log2 (Zpos p) - 61)%Z in
      let q := Z.shiftr (Zpos p) k in
      let sticky := if (Z.shiftl q k =? Zpos p)%Z then 0%Z else 1%Z in
      FloatOps.Z.ldexp (PrimFloat.of_uint63 (Uint63.of_Z (Z.lor q sticky))) k in
  match z with
  | Z0 => PrimFloat.zero
  | Zpos p => of_pos p
  | Zneg p => PrimFloat.opp (of_pos p)
  end.

(** IEEE 754 binary64, the arithmetic of [float] and [np.float64]. *)
#[global] Instance binary64_Scalar : Scalar PrimFloat.float := {|
  zero := PrimFloat.zero;
  one := PrimFloat.one;
  add := PrimFloat.add;
  sub := PrimFloat.sub;
  div := PrimFloat.div;
  of_int := float_of_Z
|}.

(** ** The element types of arrays *)

(** [int(x)] for a float [x]: the integer part, rounding toward zero. *)
Definition py_int (x : R) : Z :=
  if Rle_dec 0 x then Int_part x else (- Int_part (- x))%Z.

(** The conversion of a binary64 value to [int64]: a finite value
    loses its fraction, rounding toward zero.  For NaN, the infinities
    and the values beyond [int64] C leaves the conversion undefined; the
    x86-64 instruction gives the least [int64], which is what is written
    here. *)
Definition int64_of_float (x : PrimFloat.float) : Z :=
  match FloatOps.Prim2SF x with
  | SpecFloat.S754_zero _ => 0%Z
  | SpecFloat.S754_finite s m e =>
      let magnitude := Z.shiftl (Zpos m) e in
      let n := if s then (- magnitude)%Z else magnitude in
      if decide (- 2 ^ 63 ≤ n < 2 ^ 63)%Z then n else (- 2 ^ 63)%Z
  | _ => (- 2 ^ 63)%Z
  end.

(** The element type [B] of an array, next to the arithmetic [A] of
    the class: the zero of the type, which [np.zeros_like] fills a new
    array with; [item], what an element taken from the array is to the
    arithmetic of [filter_sample] (an [np.int64] is converted to a float
    by the assignment into the buffer and by [+]); and [store], what the
    assignment [a[i] = v] of a float [v] writes into the array. *)
Class Dtype (A B : Type) : Type := {
  dtype_zero : B;
  item : B → A;
  store : A → B
}.

(** An array of floats, [dtype=float64]: the values as they are. *)
#[global] Instance float64 {A : Type} `{Scalar A} : Dtype A A := {|
  dtype_zero := zero;
  item := λ v, v;
  store := λ v, v
|}.

(** An array of integers, [dtype=int64], in exact arithmetic: an
    assignment keeps the integer part of the float. *)
#[global] Instance int64_R : Dtype R Z := {|
  dtype_zero := 0%Z;
  item := IZR;
  store := py_int
|}.

(** An array of integers, [dtype=int64], on binary64. *)
#[global] Instance int64_binary64 : Dtype PrimFloat.float Z := {|
  dtype_zero := 0%Z;
  item := float_of_Z;
  store := int64_of_float
|}.

(** ** NumPy arrays and Python integers *)

Section Arrays.
Context {A : Type} `{Scalar A}.

(** [np.zeros(n)]: [n] zeros; a negative [n] raises [ValueError]
    ("negative dimensions are not allowed"). *)
Definition np_zeros (n : Z) : result (list A) :=
  if (n <? 0)%Z then Raise ValueError else Ok (replicate (Z.to_nat n) zero).

(** [np.ones(n)]. *)
Definition np_ones (n : Z) : result (list A) :=
  if (n <? 0)%Z then Raise ValueError else Ok (replicate (Z.to_nat n) one).

(** [np.zeros_like(a)] for a one-dimensional array: zeros of the
    element type of [a], as many as [a] has elements. *)
Definition np_zeros_like {B : Type} `{Dtype A B} (a : list B) : list B :=
  replicate (length a) dtype_zero.

(** [a / n], an array divided by an [int], element by element. *)
Definition np_divide (a : list A) (n : Z) : list A :=
  (λ v, div v (of_int n)) <$> a.

(** The position an index denotes in an array of length [len]: a
    negative index counts from the end; out of range there is none. *)
Definition position (len : nat) (i : Z) : option nat :=
  if decide (0 ≤ i < Z.of_nat len)%Z then Some (Z.to_nat i)
  else if decide (- Z.of_nat len ≤ i < 0)%Z then Some (Z.to_nat (Z.of_nat len + i))
  else None.

(** [a[i]]. *)
Definition getitem (a : list A) (i : Z) : result A :=
  match position (length a) i with
  | Some k =>
      match a !! k with
      | Some v => Ok v
      | None => Raise IndexError
      end
  | None => Raise IndexError
  end.

(** [a[i] = v]. *)
Definition setitem (a : list A) (i : Z) (v : A) : result (list A) :=
  match position (length a) i with
  | Some k => Ok (<[k:=v]> a)
  | None => Raise IndexError
  end.
End Arrays.

(** [a % b] on Python integers: the remainder has the sign of [b]; a
    zero [b] raises [ZeroDivisionError]. *)
Definition py_mod (a b : Z) : result Z :=
  if (b =? 0)%Z then Raise ZeroDivisionError else Ok (a mod b)%Z.

(** ** Complex values and the frequency grid

    The frequency response is computed on [np.complex128] values; in
    exact arithmetic a complex number is a pair of reals. *)

Definition complex : Type := (R * R)%type.

Definition Cadd (z w : complex) : complex := (z.1 + w.1, z.2 + w.2)%R.

(** A real multiple of [exp(-1j * theta)]. *)
Definition Cpolar (r theta : R) : complex := (r * cos theta, - (r * sin theta))%R.

(** [np.abs(z)]. *)
Definition np_abs (z : complex) : R := sqrt (z.1 * z.1 + z.2 * z.2)%R.

(** [np.arctan2(y, x)] on finite values: the angle of the point
    [(x, y)], in [(-pi, pi]], and [0] at the origin. *)
Definition arctan2 (y x : R) : R :=
  if Rlt_dec 0 x then atan (y / x)
  else if Rlt_dec x 0 then
    if Rle_dec 0 y then (atan (y / x) + PI)%R else (atan (y / x) - PI)%R
  else if Rlt_dec 0 y then (PI / 2)%R
  else if Rlt_dec y 0 then (- (PI / 2))%R
  else 0%R.

(** [np.angle(z)]. *)
Definition np_angle (z : complex) : R := arctan2 z.2 z.1.

(** [np.linspace(0, stop, num, endpoint=False)]: [num] points from [0]
    in steps of [stop / num]; [stop] itself is not among them. *)
Definition np_linspace_open (stop : R) (num : nat) : list R :=
  (λ k, INR k * (stop / INR num))%R <$> seq 0 num.

(** The sum of [b[n] * exp(-1j * w * n)] over the coefficients [b],
    the first of them at position [n]. *)
Fixpoint response_from (n : nat) (b : list R) (w : R) : complex :=
  match b with
  | [] => (0, 0)%R
  | bn :: rest => Cadd (Cpolar bn (w * INR n)) (response_from (S n) rest w)
  end.

(** [scipy.signal.freqz(b, worN=N)] for an [int] [N], with the
    defaults [a=1], [whole=False], [include_nyquist=False]: as SciPy
    documents it, the frequencies are
    [np.linspace(0, pi, N, endpoint=False)] and the response at [w] is
    the sum of [b[n] * exp(-1j * w * n)]; a negative [N] raises
    [ValueError] and [N = 0] gives two empty arrays.  With [N = 0] and
    no coefficient at all the call raises [IndexError]: the response is
    then evaluated as a polynomial, from its last coefficient [b[-1]]
    on. *)
Definition freqz (b : list R) (worN : Z) : result (list R * list complex) :=
  if (worN <? 0)%Z then Raise ValueError
  else
    match b, Z.to_nat worN with
    | [], O => Raise IndexError
    | _, _ =>
        let w := np_linspace_open PI (Z.to_nat worN) in
        Ok (w, response_from 0 b <$> w)
    end.

(** ** The class *)

Module MovingAverageFilter.

(** The attributes of an instance. *)
Record t (A : Type) : Type := Self {
  window_size : Z;
  buffer : list A;
  index : Z;
  sum : A
}.
Arguments Self {A} _ _ _ _.
Arguments window_size {A} _.
Arguments buffer {A} _.
Arguments index {A} _.
Arguments sum {A} _.

(** The assignments [self.buffer = v], [self.index = v], [self.sum = v]. *)
Definition set_buffer {A} (v : list A) : method (t A) unit :=
  λ self, (Ok tt, Self (window_size self) v (index self) (sum self)).
Definition set_index {A} (v : Z) : method (t A) unit :=
  λ self, (Ok tt, Self (window_size self) (buffer self) v (sum self)).
Definition set_sum {A} (v : A) : method (t A) unit :=
  λ self, (Ok tt, Self (window_size self) (buffer self) (index self) v).

Section Methods.
Context {A : Type} `{Scalar A}.
Context {B : Type} `{Dtype A B}.

(** [MovingAverageFilter(window_size)].  [np.zeros] is the only
    thing that can raise; the caller then gets no object. *)
Definition __init__ (window_size : Z) : result (t A) :=
  match np_zeros window_size with
  | Ok zeros => Ok (Self window_size zeros 0 zero)
  | Raise e => Raise e
  end.

(** [filter_sample(self, input_sample)]. *)
Definition filter_sample (input_sample : A) : method (t A) A :=
  (* self.sum -= self.buffer[self.index] *)
  self ← get;
  oldest ← eval (getitem (buffer self) (index self));
  set_sum (sub (sum self) oldest);;
  (* self.buffer[self.index] = input_sample *)
  self ← get;
  buffer' ← eval (setitem (buffer self) (index self) input_sample);
  set_buffer buffer';;
  (* self.sum += input_sample *)
  self ← get;
  set_sum (add (sum self) input_sample);;
  (* self.index = (self.index + 1) % self.window_size *)
  self ← get;
  index' ← eval (py_mod (index self + 1) (window_size self));
  set_index index';;
  (* return self.sum / self.window_size *)
  self ← get;
  mret (div (sum self) (of_int (window_size self))).

(** The loop of [filter_signal]: [enumerate] from position [i] on,
    storing each filtered sample at its position, in the element type
    of the output array. *)
Fixpoint filter_signal_loop (i : nat) (input_signal output_signal : list B)
  : method (t A) (list B) :=
  match input_signal with
  | [] => mret output_signal
  | sample :: rest =>
      (* output_signal[i] = self.filter_sample(sample) *)
      y ← filter_sample (item sample);
      output_signal' ← eval (setitem output_signal (Z.of_nat i) (store y));
      filter_signal_loop (S i) rest output_signal'
  end.

(** [filter_signal(self, input_signal)], for an array [input_signal]
    of any element type. *)
Definition filter_signal (input_signal : list B) : method (t A) (list B) :=
  filter_signal_loop 0 input_signal (np_zeros_like input_signal).

(** [get_impulse_response(self)]. *)
Definition get_impulse_response : method (t A) (list A) :=
  self ← get;
  ones ← eval (np_ones (window_size self));
  mret (np_divide ones (window_size self)).

End Methods.

(** [get_frequency_response(self, num_points)], in exact arithmetic. *)
Definition get_frequency_response (num_points : Z)
  : method (t R) (list R * list R * list R) :=
  h ← get_impulse_response;
  wH ← eval (freqz h num_points);
  (* Convert to Hz (assuming normalized frequency) *)
  let frequencies := (λ w, w / (2 * PI))%R <$> wH.1 in
  let magnitude := np_abs <$> wH.2 in
  let phase := np_angle <$> wH.2 in
  mret (frequencies, magnitude, phase).

End MovingAverageFilter.

(** ** The demonstrations

    What [create_test_signal] and [demonstrate_moving_average] compute,
    apart from printing and plotting, in exact arithmetic. *)

(** [MovingAverageFilter(window_size).filter_signal(signal)]: a filter
    created and applied to a whole signal, as [demonstrate_moving_average]
    does for each of its window sizes. *)
Definition apply_filter {A B} `{Scalar A} `{Dtype A B}
  (window_size : Z) (signal : list B) : result (list B) :=
  match MovingAverageFilter.__init__ window_size with
  | Ok ma_filter => (MovingAverageFilter.filter_signal signal ma_filter).1
  | Raise e => Raise e
  end.

(** [c * a] for a number [c] and an array [a]. *)
Definition np_scale (c : R) (a : list R) : list R := Rmult c <$> a.

(** [np.sin(a)]. *)
Definition np_sin (a : list R) : list R := sin <$> a.

(** [a + b] for two arrays of one length. *)
Definition np_add (a b : list R) : list R := zip_with Rplus a b.

(** [create_test_signal(duration, fs)].  [randn] stands for
    [np.random.randn]: [randn n] is the array of the [n] values it
    draws.  A negative number of samples makes [np.linspace] raise
    [ValueError].  The number of samples is written here as [int] of
    the exact product [fs * duration]; the interpreter takes [int] of
    the product rounded to binary64, which is the same number when the
    exact product is a whole number, the case for which the number of
    samples is stated below. *)
Definition create_test_signal (randn : nat → list R) (duration : R) (fs : Z)
  : result (list R * list R * list R) :=
  let num := py_int (IZR fs * duration) in
  if (num <? 0)%Z then Raise ValueError
  else
    let t := np_linspace_open duration (Z.to_nat num) in
    (* Create a composite signal with multiple frequency components *)
    let clean_signal :=
      np_add
        (np_add (np_scale 2 (np_sin (np_scale (2 * PI * 10) t)))
                (np_scale 1.5 (np_sin (np_scale (2 * PI * 25) t))))
        (np_scale 0.8 (np_sin (np_scale (2 * PI * 50) t))) in
    (* Add noise *)
    let noise := np_scale 1.5 (randn (length t)) in
    let noisy_signal := np_add clean_signal noise in
    Ok (t, clean_signal, noisy_signal).

(** [np.exp(1j * theta)]. *)
Definition np_exp_j (theta : R) : complex := (cos theta, sin theta).

(** The zeros [demonstrate_moving_average] computes for its pole-zero
    plot: [np.exp(1j * 2 * np.pi * k / N)] for [k] in [range(1, N)]
    (there with [N = 15]). *)
Definition pole_zero_zeros (N : nat) : list complex :=
  (λ k, np_exp_j (2 * PI * INR k / INR N))%R <$> seq 1 (N - 1).

(** ** Notions the properties are stated with *)

Import MovingAverageFilter.

(** An averager as the constructor and the filter leave it for a window
    size of at least one: the buffer has [window_size] slots and the
    write index is one of them. *)
Definition well_formed {A} (self : t A) : Prop :=
  (1 ≤ window_size self)%Z
  ∧ Z.of_nat (length (buffer self)) = window_size self
  ∧ (0 ≤ index self < window_size self)%Z.

(** Streaming use: [filter_sample] called once per element of [xs], in
    order, the results collected in the same order. *)
Fixpoint filter_samples {A} `{Scalar A} (xs : list A) : method (t A) (list A) :=
  match xs with
  | [] => mret []
  | x :: rest =>
      y ← filter_sample x;
      ys ← filter_samples rest;
      mret (y :: ys)
  end.

(** Python's [sum(a)]: the elements added from the left, starting at 0. *)
Definition py_sum {A} `{Scalar A} (a : list A) : A := fold_left add a zero.

(** The window after the inputs [fed]: the last [N] of them, preceded
    by zeros while fewer than [N] have been fed. *)
Definition window (N : nat) (fed : list R) : list R :=
  drop (length fed) (replicate N 0%R ++ fed).

(** The averager of window size [N] holds the window of the samples
    [fed]: the running sum is the sum of the window and the slot [j]
    places after the write index holds the window's [j]-th value. *)
Definition holds_window (N : nat) (fed : list R) (self : t R) : Prop :=
  well_formed self
  ∧ window_size self = Z.of_nat N
  ∧ sum self = py_sum (window N fed)
  ∧ ∀ j, j < N →
      buffer self !! Z.to_nat ((index self + Z.of_nat j) mod Z.of_nat N)
        = window N fed !! j.

(** The unit impulse of length [S m]: a one followed by [m] zeros. *)
Definition unit_impulse (m : nat) : list R := 1%R :: replicate m 0%R.

(** The sum of [f n] for [n] below [N]. *)
Fixpoint sum_below (N : nat) (f : nat → R) : R :=
  match N with
  | O => 0%R
  | S n => (sum_below n f + f n)%R
  end.

(** The transfer function of the averager of length [N] at the angular
    frequency [w]: the sum over [n < N] of [(1/N) * exp(-1j * w * n)],
    real and imaginary part. *)
Definition transfer (N : nat) (w : R) : complex :=
  (sum_below N (λ n, 1 / INR N * cos (w * INR n)),
   sum_below N (λ n, - (1 / INR N * sin (w * INR n))))%R.

(** The last [N] of the samples [fed], all of them while there are fewer. *)
Definition recent (N : nat) (fed : list R) : list R := drop (length fed - N) fed.

(** The sample [n] places before position [k] of [xs]; nothing comes
    before the first. *)
Definition delayed (xs : list R) (k n : nat) : R :=
  if decide (n ≤ k) then nth (k - n) xs 0%R else 0%R.

(** The convolution of [xs] with the coefficients [h], at position [k]. *)
Definition convolve (h xs : list R) (k : nat) : R :=
  sum_below (length h) (λ n, nth n h 0 * delayed xs k n)%R.

(** The signal [a * xs + b * ys], sample by sample. *)
Definition mix (a b : R) (xs ys : list R) : list R :=
  zip_with (λ x y, a * x + b * y)%R xs ys.

(** The product of two complex values. *)
Definition Cmul (z w : complex) : complex :=
  (z.1 * w.1 - z.2 * w.2, z.1 * w.2 + z.2 * w.1)%R.

(** The clean test signal at the time [x]: sines of 10 Hz, 25 Hz and
    50 Hz with the amplitudes 2, 1.5 and 0.8. *)
Definition clean_at (x : R) : R :=
  (2 * sin (2 * PI * 10 * x) + 1.5 * sin (2 * PI * 25 * x)
   + 0.8 * sin (2 * PI * 50 * x))%R.

(** ** One call of [filter_sample] *)

(** Run the sequencing of a method body. *)
Ltac run_method :=
  unfold mbind, method_bind, mret, method_ret, get, eval.

Section Step.
Context {A : Type} `{Scalar A}.

Lemma position_in_range (len : nat) (i : Z) :
  (0 ≤ i < Z.of_nat len)%Z → position len i = Some (Z.to_nat i).
Proof. intros Hi. unfold position. by rewrite decide_True. Qed.

Lemma well_formed_slot (self : t A) :
  well_formed self → Z.to_nat (index self) < length (buffer self).
Proof. intros (HN & Hlen & Hi). lia. Qed.

(** On a well-formed averager the call returns, and this is what it
    returns and leaves. *)
Lemma filter_sample_step (self : t A) (x oldest : A) :
  well_formed self →
  buffer self !! Z.to_nat (index self) = Some oldest →
  filter_sample x self =
    (Ok (div (add (sub (sum self) oldest) x) (of_int (window_size self))),
     Self (window_size self)
          (<[Z.to_nat (index self) := x]> (buffer self))
          ((index self + 1) mod window_size self)
          (add (sub (sum self) oldest) x)).
Proof.
  intros (HN & Hlen & Hi) Hold.
  destruct self as [N buf i s]; simpl in *.
  unfold filter_sample, mbind, method_bind, mret, method_ret, get, eval,
    set_sum, set_buffer, set_index, getitem, setitem, py_mod; simpl.
  rewrite position_in_range by lia. rewrite Hold. simpl.
  destruct (Z.eqb_spec N 0) as [->|_]; [lia | reflexivity].
Qed.

Lemma filter_sample_well_formed (self : t A) (x : A) :
  well_formed self →
  ∃ y self', filter_sample x self = (Ok y, self')
    ∧ well_formed self'
    ∧ window_size self' = window_size self.
Proof.
  intros Hwf.
  destruct (lookup_lt_is_Some_2 _ _ (well_formed_slot _ Hwf)) as [oldest Hold].
  eexists _, _. split; [by apply filter_sample_step |].
  destruct Hwf as (HN & Hlen & Hi). repeat split; simpl.
  - done.
  - by rewrite length_insert.
  - apply Z.mod_pos_bound; lia.
  - apply Z.mod_pos_bound; lia.
Qed.

Lemma init_positive (n : Z) :
  (0 ≤ n)%Z → __init__ n = Ok (Self n (replicate (Z.to_nat n) zero) 0 zero).
Proof.
  intros Hn. unfold __init__, np_zeros.
  destruct (Z.ltb_spec n 0); [lia | reflexivity].
Qed.

Lemma init_well_formed (n : Z) :
  (1 ≤ n)%Z → well_formed (Self n (replicate (Z.to_nat n) zero) 0 zero).
Proof. intros Hn. repeat split; simpl; rewrite ?length_replicate; lia. Qed.

Lemma filter_samples_well_formed (xs : list A) (self : t A) :
  well_formed self →
  ∃ ys self', filter_samples xs self = (Ok ys, self')
    ∧ length ys = length xs
    ∧ well_formed self'
    ∧ window_size self' = window_size self.
Proof.
  revert self. induction xs as [|x xs IH]; intros self Hwf.
  - by exists [], self.
  - destruct (filter_sample_well_formed self x Hwf) as (y & self1 & Hy & Hwf1 & HN1).
    destruct (IH self1 Hwf1) as (ys & self2 & Hys & Hlen & Hwf2 & HN2).
    exists (y :: ys), self2. simpl.
    unfold mbind, method_bind at 1. rewrite Hy.
    unfold mbind, method_bind at 1. rewrite Hys.
    split; [reflexivity |]. split; [simpl; by f_equal |].
    split; [done | congruence].
Qed.

End Step.

(** C1: on an averager with [window_size >= 1] (its buffer of that
    length, its write index [i] within it), one call of [filter_sample]
    with input [x] subtracts [buffer[i]] from the running sum, stores
    [x] in slot [i], adds [x] to the running sum, moves the index to
    [(i + 1) mod window_size] and returns the new running sum divided by
    [window_size]; every other slot keeps its value.  This holds for any
    arithmetic of the samples, binary64 included. *)
Theorem filter_sample_contract {A : Type} `{Scalar A} (self : t A) (x : A) :
  well_formed self →
  ∃ oldest running,
    buffer self !! Z.to_nat (index self) = Some oldest
    ∧ running = add (sub (sum self) oldest) x
    ∧ ∃ self',
        filter_sample x self = (Ok (div running (of_int (window_size self))), self')
        ∧ window_size self' = window_size self
        ∧ sum self' = running
        ∧ index self' = ((index self + 1) mod window_size self)%Z
        ∧ length (buffer self') = length (buffer self)
        ∧ buffer self' !! Z.to_nat (index self) = Some x
        ∧ ∀ j, j ≠ Z.to_nat (index self) → buffer self' !! j = buffer self !! j.
Proof.
  intros Hwf.
  pose proof (well_formed_slot _ Hwf) as Hslot.
  destruct (lookup_lt_is_Some_2 _ _ Hslot) as [oldest Hold].
  exists oldest, (add (sub (sum self) oldest) x).
  split; [done |]. split; [done |].
  eexists. split; [by apply filter_sample_step |]. simpl.
  repeat split.
  - by rewrite length_insert.
  - by apply list_lookup_insert_eq.
  - intros j Hj. by apply list_lookup_insert_ne.
Qed.

Lemma filter_sample_contract_witness :
  ∃ oldest running,
    buffer (Self 2 [5; 7] 1 12)%R !! Z.to_nat 1 = Some oldest
    ∧ running = add (sub 12%R oldest) 3%R
    ∧ ∃ self',
        filter_sample 3%R (Self 2 [5; 7] 1 12)%R = (Ok (div running (of_int 2)), self')
        ∧ window_size self' = 2%Z
        ∧ sum self' = running
        ∧ index self' = ((1 + 1) mod 2)%Z
        ∧ length (buffer self') = 2
        ∧ buffer self' !! Z.to_nat 1 = Some 3%R
        ∧ ∀ j, j ≠ Z.to_nat 1 → buffer self' !! j = [5; 7]%R !! j.
Proof.
  apply (filter_sample_contract (Self 2 [5; 7] 1 12)%R 3%R).
  repeat split; simpl; lia.
Defined.

(** ** [filter_signal] against streaming use *)

Section Signal.
Context {A : Type} `{Scalar A}.
Context {B : Type} `{Dtype A B}.


(** The loop fills the positions from [i] on with the streamed
    results, each stored in the element type of the array, and touches
    nothing else of the output array. *)
Lemma filter_signal_loop_streams (xs out : list B) (i : nat) (self : t A) :
  i + length xs ≤ length out →
  filter_signal_loop i xs out self =
    match filter_samples (item <$> xs) self with
    | (Ok ys, self') =>
        (Ok (take i out ++ (store <$> ys) ++ drop (i + length xs) out), self')
    | (Raise e, self') => (Raise e, self')
    end.
Proof.
  revert out i self. induction xs as [|x xs IH]; intros out i self Hlen; simpl in *.
  - unfold mret, method_ret. by rewrite Nat.add_0_r, take_drop.
  - unfold mbind, method_bind.
    destruct (filter_sample (item x) self) as [[y|e] self1]; [|done].
    unfold eval, setitem. rewrite position_in_range, Nat2Z.id by lia.
    rewrite IH by (rewrite length_insert; lia).
    change (list_fmap B A item xs) with (item <$> xs).
    destruct (filter_samples (item <$> xs) self1) as [[ys|e] self2]; [|done].
    unfold mret, method_ret. do 2 f_equal.
    rewrite (take_S_r _ _ (store y)) by (apply list_lookup_insert_eq; lia).
    rewrite take_insert_ge by lia.
    rewrite drop_insert_lt by lia.
    rewrite <- (assoc_L (++)). simpl.
    by replace (i + S (length xs)) with (S (i + length xs)) by lia.
Qed.

(** [filter_signal] on an array of any element type: the streamed
    calls on its elements, their results stored in that type. *)
Lemma filter_signal_stores (xs : list B) (self : t A) :
  filter_signal xs self =
    match filter_samples (item <$> xs) self with
    | (Ok ys, self') => (Ok (store <$> ys), self')
    | (Raise e, self') => (Raise e, self')
    end.
Proof.
  unfold filter_signal, np_zeros_like.
  rewrite filter_signal_loop_streams by (rewrite length_replicate; lia).
  destruct (filter_samples (item <$> xs) self) as [[ys|e] self'] eqn:Hs; [|done].
  rewrite drop_ge by (rewrite length_replicate; lia).
  by rewrite take_0, app_nil_r.
Qed.

End Signal.

Section FloatSignal.
Context {A : Type} `{Scalar A}.

(** On an array of floats nothing is converted. *)
Lemma filter_signal_streams (xs : list A) (self : t A) :
  filter_signal xs self = filter_samples xs self.
Proof.
  rewrite filter_signal_stores. unfold item, store, float64.
  rewrite list_fmap_id.
  destruct (filter_samples xs self) as [[ys|e] self']; [|done].
  by rewrite list_fmap_id.
Qed.

End FloatSignal.



(** ** Exact arithmetic: sums of arrays *)

Section Sums.
Local Open Scope R_scope.

Lemma fold_left_Rplus (a : list R) (s : R) :
  fold_left Rplus a s = s + fold_left Rplus a 0.
Proof.
  revert s. induction a as [|x a IH]; intros s; simpl.
  - lra.
  - rewrite (IH (s + x)), (IH (0 + x)). lra.
Qed.

Lemma py_sum_nil : py_sum (A:=R) [] = 0.
Proof. reflexivity. Qed.

Lemma py_sum_cons (x : R) (a : list R) : py_sum (x :: a) = x + py_sum a.
Proof.
  unfold py_sum. simpl. rewrite fold_left_Rplus. lra.
Qed.

Lemma py_sum_app (a b : list R) : py_sum (a ++ b) = py_sum a + py_sum b.
Proof.
  induction a as [|x a IH]; simpl.
  - rewrite py_sum_nil. lra.
  - rewrite !py_sum_cons, IH. lra.
Qed.

Lemma py_sum_replicate (n : nat) (c : R) : py_sum (replicate n c) = INR n * c.
Proof.
  induction n as [|n IH].
  - simpl. rewrite py_sum_nil. lra.
  - rewrite S_INR. simpl replicate. rewrite py_sum_cons, IH. lra.
Qed.

Lemma py_sum_insert (a : list R) (i : nat) (old x : R) :
  a !! i = Some old → py_sum (<[i:=x]> a) = py_sum a - old + x.
Proof.
  revert i. induction a as [|y a IH]; intros [|i] Hi; simpl in *; try done.
  - injection Hi as ->. rewrite !py_sum_cons. lra.
  - rewrite !py_sum_cons, (IH i Hi). lra.
Qed.

End Sums.

(** ** Exact arithmetic: the running sum and the window *)

Section Window.
Local Open Scope R_scope.

(** The step of [filter_sample_step], read in the reals. *)
Lemma filter_sample_step_R (self : t R) (x oldest : R) :
  well_formed self →
  buffer self !! Z.to_nat (index self) = Some oldest →
  filter_sample x self =
    (Ok ((sum self - oldest + x) / IZR (window_size self)),
     Self (window_size self)
          (<[Z.to_nat (index self) := x]> (buffer self))
          ((index self + 1) mod window_size self)
          (sum self - oldest + x)).
Proof. intros Hwf Hold. by rewrite (filter_sample_step self x oldest). Qed.

(** The invariant of the running sum is kept by every call. *)
Lemma filter_samples_running_sum (xs : list R) (self : t R) :
  well_formed self →
  sum self = py_sum (buffer self) →
  ∃ ys self', filter_samples xs self = (Ok ys, self')
    ∧ well_formed self'
    ∧ sum self' = py_sum (buffer self').
Proof.
  revert self. induction xs as [|x xs IH]; intros self Hwf Hsum.
  - by exists [], self.
  - destruct (lookup_lt_is_Some_2 _ _ (well_formed_slot _ Hwf)) as [oldest Hold].
    pose proof (filter_sample_step_R self x oldest Hwf Hold) as Hstep.
    destruct (filter_sample_well_formed self x Hwf) as (y & self1 & Hy & Hwf1 & _).
    rewrite Hstep in Hy. injection Hy as <- <-.
    destruct (IH _ Hwf1) as (ys & self2 & Hys & Hwf2 & Hsum2).
    { simpl. rewrite (py_sum_insert _ _ oldest) by done. by rewrite Hsum. }
    eexists _, self2. simpl. unfold mbind, method_bind.
    rewrite Hstep, Hys. split; [reflexivity | by split].
Qed.

Lemma window_length (N : nat) (fed : list R) : length (window N fed) = N.
Proof.
  unfold window. rewrite length_drop, length_app, length_replicate. lia.
Qed.

Lemma window_nil (N : nat) : window N [] = replicate N 0.
Proof. unfold window. simpl. by rewrite app_nil_r. Qed.

(** Feeding one more sample drops the oldest of the window and appends
    the new one. *)
Lemma window_snoc (N : nat) (fed : list R) (x : R) :
  (1 ≤ N)%nat →
  ∃ oldest rest,
    window N fed = oldest :: rest ∧ window N (fed ++ [x]) = rest ++ [x].
Proof.
  intros HN. unfold window.
  assert (length fed < length (replicate N 0%R ++ fed))%nat as Hlt
    by (rewrite length_app, length_replicate; lia).
  destruct (lookup_lt_is_Some_2 _ _ Hlt) as [oldest Hold].
  exists oldest, (drop (S (length fed)) (replicate N 0 ++ fed)).
  split; [by apply drop_S |].
  rewrite length_app. simpl. rewrite Nat.add_1_r.
  rewrite (assoc_L (++)). by rewrite drop_app_le by lia.
Qed.

End Window.

Section Outputs.
Local Open Scope R_scope.

Lemma index_shift_misses (N i m : Z) :
  (0 ≤ i < N)%Z → (1 ≤ m < N)%Z → ((i + m) mod N ≠ i)%Z.
Proof.
  intros Hi Hm Heq.
  destruct (Z_lt_le_dec (i + m) N) as [Hlt|Hge].
  - rewrite Z.mod_small in Heq by lia. lia.
  - replace (i + m)%Z with ((i + m - N) + 1 * N)%Z in Heq by lia.
    rewrite Z_mod_plus_full, Z.mod_small in Heq by lia. lia.
Qed.

Lemma holds_window_fresh (N : nat) :
  (1 ≤ N)%nat →
  holds_window N [] (Self (Z.of_nat N) (replicate N 0) 0 0).
Proof.
  intros HN. split; [|split; [done|split]]; simpl.
  - repeat split; simpl; rewrite ?length_replicate; lia.
  - by rewrite window_nil, py_sum_replicate, Rmult_0_r.
  - intros j Hj. rewrite window_nil, Z.add_0_l, Z.mod_small, Nat2Z.id by lia.
    done.
Qed.

(** One call on an averager that holds the window of [fed]: it returns
    the mean of the window of [fed ++ [x]] and holds that window. *)
Lemma holds_window_step (N : nat) (fed : list R) (self : t R) (x : R) :
  (1 ≤ N)%nat →
  holds_window N fed self →
  ∃ self',
    filter_sample x self
      = (Ok (py_sum (window N (fed ++ [x])) / IZR (Z.of_nat N)), self')
    ∧ holds_window N (fed ++ [x]) self'.
Proof.
  intros HN (Hwf & HsizeN & Hsum & Hbuf).
  destruct (window_snoc N fed x HN) as (oldest & rest & Hw & Hw').
  assert (length rest = N - 1)%nat as Hrest.
  { pose proof (window_length N fed) as Hl. rewrite Hw in Hl. simpl in Hl. lia. }
  pose proof Hwf as (H1 & Hlen & Hi). rewrite HsizeN in Hi.
  assert (buffer self !! Z.to_nat (index self) = Some oldest) as Hold.
  { specialize (Hbuf 0%nat HN). rewrite Hw in Hbuf. simpl in Hbuf.
    by rewrite Z.add_0_r, Z.mod_small in Hbuf by lia. }
  assert (sum self - oldest + x = py_sum (window N (fed ++ [x]))) as Hnew.
  { rewrite Hsum, Hw, Hw', py_sum_cons, py_sum_app, py_sum_cons, py_sum_nil. lra. }
  destruct (filter_sample_well_formed self x Hwf) as (y & self' & Hy & Hwf' & _).
  rewrite (filter_sample_step_R self x oldest Hwf Hold) in Hy.
  injection Hy as <- <-.
  eexists. split.
  { rewrite (filter_sample_step_R self x oldest Hwf Hold).
    do 2 f_equal. by rewrite Hnew, HsizeN. }
  split; [done|]. split; [done|]. split; [done|]. simpl.
  intros j Hj. rewrite HsizeN, Hw'.
  rewrite Zplus_mod_idemp_l.
  destruct (decide (j = N - 1)%nat) as [->|Hne].
  - replace (index self + 1 + Z.of_nat (N - 1))%Z
      with (index self + 1 * Z.of_nat N)%Z by lia.
    rewrite Z_mod_plus_full, Z.mod_small by lia.
    rewrite list_lookup_insert_eq by lia.
    rewrite lookup_app_r by lia. by rewrite Hrest, Nat.sub_diag.
  - rewrite list_lookup_insert_ne.
    + replace (index self + 1 + Z.of_nat j)%Z
        with (index self + Z.of_nat (S j))%Z by lia.
      rewrite (Hbuf (S j)) by lia. rewrite Hw. simpl.
      by rewrite lookup_app_l by lia.
    + intros Heq. apply Z2Nat.inj in Heq.
      * symmetry in Heq. revert Heq.
        replace (index self + 1 + Z.of_nat j)%Z
          with (index self + (1 + Z.of_nat j))%Z by lia.
        apply index_shift_misses; lia.
      * lia.
      * apply Z.mod_pos_bound. lia.
Qed.

(** Streaming [xs] into an averager that holds the window of [fed]:
    the [k]-th result is the mean of the window after [k + 1] of them. *)
Lemma filter_samples_window (N : nat) (xs fed : list R) (self : t R) :
  (1 ≤ N)%nat →
  holds_window N fed self →
  ∃ ys self',
    filter_samples xs self = (Ok ys, self')
    ∧ holds_window N (fed ++ xs) self'
    ∧ length ys = length xs
    ∧ ∀ k, (k < length xs)%nat →
        ys !! k
          = Some (py_sum (window N (fed ++ take (S k) xs)) / IZR (Z.of_nat N)).
Proof.
  intros HN. revert fed self. induction xs as [|x xs IH]; intros fed self Hinv.
  - exists [], self. rewrite app_nil_r. do 3 (split; [done|]).
    intros k Hk. simpl in Hk. lia.
  - destruct (holds_window_step N fed self x HN Hinv) as (self1 & Hstep & Hinv1).
    destruct (IH _ _ Hinv1) as (ys & self2 & Hys & Hinv2 & Hlen & Hout).
    eexists _, self2. simpl. unfold mbind, method_bind.
    rewrite Hstep, Hys. split; [reflexivity|].
    rewrite <- (assoc_L (++)) in Hinv2. split; [done|].
    split; [simpl; by f_equal|].
    intros [|k] Hk; simpl; [done|].
    rewrite Hout by (simpl in Hk; lia).
    by rewrite <- (assoc_L (++)).
Qed.

(** The same from a freshly constructed averager. *)
Lemma fresh_outputs (N : Z) (xs : list R) :
  (1 ≤ N)%Z →
  ∃ ys self',
    filter_samples xs (Self N (replicate (Z.to_nat N) 0) 0 0) = (Ok ys, self')
    ∧ length ys = length xs
    ∧ ∀ k, (k < length xs)%nat →
        ys !! k = Some (py_sum (window (Z.to_nat N) (take (S k) xs)) / IZR N).
Proof.
  intros HN.
  pose proof (holds_window_fresh (Z.to_nat N)) as Hfresh.
  rewrite Z2Nat.id in Hfresh by lia.
  destruct (filter_samples_window (Z.to_nat N) xs [] _ ltac:(lia) (Hfresh ltac:(lia)))
    as (ys & self' & Hys & _ & Hlen & Hout).
  exists ys, self'. split; [done|]. split; [done|].
  intros k Hk. rewrite (Hout k Hk). simpl. by rewrite Z2Nat.id by lia.
Qed.

Lemma window_sum_constant (N k : nat) (c : R) :
  py_sum (window N (replicate k c)) = INR (k `min` N) * c.
Proof.
  unfold window. rewrite length_replicate, drop_app, !drop_replicate, length_replicate.
  rewrite py_sum_app, !py_sum_replicate.
  replace (k - (k - N))%nat with (k `min` N)%nat by lia. lra.
Qed.

Lemma window_sum_impulse (N k : nat) :
  py_sum (window N (unit_impulse k)) = if decide (k < N)%nat then 1 else 0.
Proof.
  unfold window, unit_impulse. simpl length. rewrite length_replicate.
  rewrite drop_app, drop_replicate, length_replicate, py_sum_app, py_sum_replicate.
  case_decide as Hk.
  - replace (S k - N)%nat with 0%nat by lia. simpl drop.
    rewrite py_sum_cons, py_sum_replicate. lra.
  - replace (S k - N)%nat with (S (k - N)) by lia. simpl drop.
    rewrite drop_replicate, py_sum_replicate. lra.
Qed.

End Outputs.

(** ** The properties of the streaming filter, in exact arithmetic *)

Section Properties.
Local Open Scope R_scope.

Lemma init_R (N : Z) :
  (0 ≤ N)%Z → __init__ N = Ok (Self N (replicate (Z.to_nat N) 0) 0 0).
Proof. intros HN. exact (init_positive (A:=R) N HN). Qed.

Lemma init_well_formed_R (N : Z) :
  (1 ≤ N)%Z → well_formed (Self N (replicate (Z.to_nat N) 0) 0 0).
Proof. intros HN. exact (init_well_formed (A:=R) N HN). Qed.

Lemma INR_to_nat (N : Z) : (0 ≤ N)%Z → INR (Z.to_nat N) = IZR N.
Proof. intros HN. by rewrite INR_IZR_INZ, Z2Nat.id. Qed.

Lemma get_impulse_response_R (self : t R) :
  (0 ≤ window_size self)%Z →
  get_impulse_response self
    = (Ok (replicate (Z.to_nat (window_size self)) (1 / IZR (window_size self))), self).
Proof.
  intros HN.
  unfold get_impulse_response, np_ones, np_divide. run_method.
  destruct (Z.ltb_spec (window_size self) 0); [lia|].
  by rewrite fmap_replicate.
Qed.

(** The results of streaming a unit impulse into a fresh averager. *)
Lemma impulse_outputs (N : Z) (m : nat) (ys : list R) (self' : t R) :
  (1 ≤ N)%Z →
  filter_samples (unit_impulse m) (Self N (replicate (Z.to_nat N) 0) 0 0)
    = (Ok ys, self') →
  length ys = S m
  ∧ ∀ k, (k ≤ m)%nat →
      ys !! k = Some (if decide (k < Z.to_nat N)%nat then 1 / IZR N else 0).
Proof.
  intros HN Hys.
  destruct (fresh_outputs N (unit_impulse m) HN) as (ys' & self'' & Hys' & Hlen & Hout).
  rewrite Hys in Hys'. injection Hys' as <- <-.
  unfold unit_impulse in Hlen. simpl in Hlen. rewrite length_replicate in Hlen.
  split; [done|]. intros k Hk.
  rewrite Hout by (unfold unit_impulse; simpl; rewrite length_replicate; lia).
  replace (take (S k) (unit_impulse m)) with (unit_impulse k).
  - rewrite window_sum_impulse. case_decide; [done|]. f_equal. lra.
  - unfold unit_impulse. simpl. rewrite take_replicate. do 2 f_equal. lia.
Qed.

(** The results of streaming a constant into a fresh averager. *)
Lemma constant_outputs (N : Z) (L : nat) (c : R) (ys : list R) (self' : t R) :
  (1 ≤ N)%Z →
  filter_samples (replicate L c) (Self N (replicate (Z.to_nat N) 0) 0 0)
    = (Ok ys, self') →
  ∀ k, (k < L)%nat →
    ys !! k = Some (INR (S k `min` Z.to_nat N) * c / IZR N).
Proof.
  intros HN Hys k Hk.
  destruct (fresh_outputs N (replicate L c) HN) as (ys' & self'' & Hys' & Hlen & Hout).
  rewrite Hys in Hys'. injection Hys' as <- <-.
  rewrite Hout by (rewrite length_replicate; lia).
  rewrite take_replicate, window_sum_constant.
  by replace (S k `min` L)%nat with (S k) by lia.
Qed.

End Properties.

(** C2, in exact arithmetic: for every window size [N >= 1] and every
    finite sequence of [filter_sample] calls on a freshly constructed
    averager, every call returns and afterwards the running sum equals
    the sum of the buffer as it then is, exactly.  (On binary64 the
    running sum also carries the rounding of the past updates.) *)
Theorem running_sum_invariant (N : Z) (xs : list R) :
  (1 ≤ N)%Z →
  ∃ self0 ys self',
    __init__ N = Ok self0
    ∧ filter_samples xs self0 = (Ok ys, self')
    ∧ sum self' = py_sum (buffer self').
Proof.
  intros HN. eexists. 
  destruct (filter_samples_running_sum xs (Self N (replicate (Z.to_nat N) 0%R) 0 0%R))
    as (ys & self' & Hys & _ & Hsum).
  - by apply init_well_formed_R.
  - simpl. rewrite py_sum_replicate. lra.
  - exists ys, self'. split; [apply init_R; lia|]. by split.
Qed.

Lemma running_sum_invariant_witness :
  ∃ self0 ys self',
    __init__ 2 = Ok self0
    ∧ filter_samples [4; 1; 3]%R self0 = (Ok ys, self')
    ∧ sum self' = py_sum (buffer self').
Proof. apply (running_sum_invariant 2 [4; 1; 3]%R). lia. Defined.

(** C5: for every window size [N >= 1], the unit impulse [1, 0, ..., 0]
    of a length of at least [N], streamed into a freshly constructed
    averager, gives the impulse response followed by zeros: the [k]-th
    result is [1/N] for [k < N] and [0] from [N] on; and
    [get_impulse_response] returns [N] values, each [1/N]. *)
Theorem impulse_response_identity (N : Z) (m : nat) :
  (1 ≤ N)%Z →
  (N ≤ Z.of_nat (S m))%Z →
  ∃ self0 h ys self',
    __init__ N = Ok self0
    ∧ get_impulse_response self0 = (Ok h, self0)
    ∧ h = replicate (Z.to_nat N) (1 / IZR N)%R
    ∧ filter_samples (unit_impulse m) self0 = (Ok ys, self')
    ∧ ys = h ++ replicate (S m - Z.to_nat N) 0%R
    ∧ (∀ k, k < Z.to_nat N → ys !! k = Some (1 / IZR N)%R)
    ∧ (∀ k, Z.to_nat N ≤ k ≤ m → ys !! k = Some 0%R).
Proof.
  intros HN Hm.
  destruct (filter_samples_well_formed (unit_impulse m)
              (Self N (replicate (Z.to_nat N) 0%R) 0 0%R))
    as (ys & self' & Hys & _).
  { by apply init_well_formed_R. }
  destruct (impulse_outputs N m ys self' HN Hys) as (Hlen & Hout).
  exists (Self N (replicate (Z.to_nat N) 0%R) 0 0%R),
    (replicate (Z.to_nat N) (1 / IZR N)%R), ys, self'.
  split; [apply init_R; lia|].
  split; [apply (get_impulse_response_R (Self N _ 0 0%R)); simpl; lia|].
  split; [done|]. split; [done|].
  assert (∀ k, k < Z.to_nat N → ys !! k = Some (1 / IZR N)%R) as Hhead.
  { intros k Hk. rewrite Hout by lia. by rewrite decide_True. }
  assert (∀ k, Z.to_nat N ≤ k ≤ m → ys !! k = Some 0%R) as Htail.
  { intros k Hk. rewrite Hout by lia. by rewrite decide_False by lia. }
  split; [|by split].
  apply list_eq. intros k.
  destruct (decide (k < Z.to_nat N)) as [Hk|Hk].
  - rewrite lookup_app_l by (rewrite length_replicate; lia).
    rewrite Hhead by done. by rewrite lookup_replicate_2.
  - rewrite lookup_app_r by (rewrite length_replicate; lia).
    rewrite length_replicate.
    destruct (decide (k ≤ m)) as [Hkm|Hkm].
    + rewrite Htail by lia. by rewrite lookup_replicate_2 by lia.
    + rewrite lookup_ge_None_2 by lia.
      symmetry. apply lookup_ge_None_2. rewrite length_replicate. lia.
Qed.

Lemma impulse_response_identity_witness :
  ∃ self0 h ys self',
    __init__ 3 = Ok self0
    ∧ get_impulse_response self0 = (Ok h, self0)
    ∧ h = replicate (Z.to_nat 3) (1 / IZR 3)%R
    ∧ filter_samples (unit_impulse 4) self0 = (Ok ys, self')
    ∧ ys = h ++ replicate (5 - Z.to_nat 3) 0%R
    ∧ (∀ k, k < Z.to_nat 3 → ys !! k = Some (1 / IZR 3)%R)
    ∧ (∀ k, Z.to_nat 3 ≤ k ≤ 4 → ys !! k = Some 0%R).
Proof. apply (impulse_response_identity 3 4); lia. Defined.

(** C6: for every window size [N >= 1], streaming ones into a freshly
    constructed averager gives [(k + 1) / N] as the [k]-th result
    (counted from 0) for every [k < N]: the average over the window
    with its zeros, not over the samples seen so far. *)
Theorem warm_up_transient (N : Z) (L k : nat) :
  (1 ≤ N)%Z →
  k < L →
  (Z.of_nat k < N)%Z →
  ∃ self0 ys self',
    __init__ N = Ok self0
    ∧ filter_samples (replicate L 1%R) self0 = (Ok ys, self')
    ∧ ys !! k = Some ((INR k + 1) / IZR N)%R.
Proof.
  intros HN HkL HkN.
  destruct (filter_samples_well_formed (replicate L 1%R)
              (Self N (replicate (Z.to_nat N) 0%R) 0 0%R))
    as (ys & self' & Hys & _).
  { by apply init_well_formed_R. }
  exists (Self N (replicate (Z.to_nat N) 0%R) 0 0%R), ys, self'.
  split; [apply init_R; lia|]. split; [done|].
  rewrite (constant_outputs N L 1%R ys self' HN Hys k HkL).
  replace (S k `min` Z.to_nat N) with (S k) by lia.
  rewrite S_INR. f_equal. lra.
Qed.

Lemma warm_up_transient_witness :
  ∃ self0 ys self',
    __init__ 4 = Ok self0
    ∧ filter_samples (replicate 6 1%R) self0 = (Ok ys, self')
    ∧ ys !! 2 = Some ((INR 2 + 1) / IZR 4)%R.
Proof. apply (warm_up_transient 4 6 2); lia. Defined.

(** C7: for every window size [N >= 1] and every constant [c],
    streaming [c] into a freshly constructed averager gives [c] on the
    [N]-th call (the result counted [N - 1] from 0) and on every call
    after it.  The arithmetic is exact, so the result is [c] itself. *)
Theorem constant_signal_convergence (N : Z) (L k : nat) (c : R) :
  (1 ≤ N)%Z →
  k < L →
  (N ≤ Z.of_nat k + 1)%Z →
  ∃ self0 ys self',
    __init__ N = Ok self0
    ∧ filter_samples (replicate L c) self0 = (Ok ys, self')
    ∧ ys !! k = Some c.
Proof.
  intros HN HkL HkN.
  destruct (filter_samples_well_formed (replicate L c)
              (Self N (replicate (Z.to_nat N) 0%R) 0 0%R))
    as (ys & self' & Hys & _).
  { by apply init_well_formed_R. }
  exists (Self N (replicate (Z.to_nat N) 0%R) 0 0%R), ys, self'.
  split; [apply init_R; lia|]. split; [done|].
  rewrite (constant_outputs N L c ys self' HN Hys k HkL).
  replace (S k `min` Z.to_nat N) with (Z.to_nat N) by lia.
  rewrite INR_to_nat by lia. f_equal. field.
  apply not_0_IZR. lia.
Qed.

Lemma constant_signal_convergence_witness :
  ∃ self0 ys self',
    __init__ 3 = Ok self0
    ∧ filter_samples (replicate 5 7%R) self0 = (Ok ys, self')
    ∧ ys !! 2 = Some 7%R.
Proof. apply (constant_signal_convergence 3 5 2 7%R); lia. Defined.

(** ** The frequency response *)

Section Response.
Local Open Scope R_scope.

Lemma sum_below_ext (N : nat) (f g : nat → R) :
  (∀ n, (n < N)%nat → f n = g n) → sum_below N f = sum_below N g.
Proof.
  induction N as [|N IH]; intros Hfg; simpl; [done|].
  rewrite IH by (intros n Hn; apply Hfg; lia).
  by rewrite Hfg by lia.
Qed.

Lemma sum_below_const (N : nat) (c : R) : sum_below N (λ _, c) = INR N * c.
Proof.
  induction N as [|N IH]; [simpl; lra|].
  rewrite S_INR. simpl. rewrite IH. lra.
Qed.

Lemma sum_below_shift (N : nat) (f : nat → R) :
  sum_below (S N) f = f 0%nat + sum_below N (λ n, f (S n)).
Proof.
  induction N as [|N IH]; [simpl; lra|].
  change (sum_below (S (S N)) f) with (sum_below (S N) f + f (S N)).
  rewrite IH. simpl. lra.
Qed.

(** The response of [N] equal coefficients, as two real sums. *)
Lemma response_from_replicate (N n0 : nat) (c w : R) :
  response_from n0 (replicate N c) w
    = (sum_below N (λ n, c * cos (w * INR (n0 + n))),
       sum_below N (λ n, - (c * sin (w * INR (n0 + n))))).
Proof.
  revert n0. induction N as [|N IH]; intros n0; [done|].
  simpl replicate. simpl response_from. rewrite IH, !sum_below_shift.
  unfold Cadd, Cpolar. cbn [fst snd]. rewrite Nat.add_0_r.
  f_equal; f_equal; apply sum_below_ext; intros n _;
    by replace (S n0 + n)%nat with (n0 + S n)%nat by lia.
Qed.

Lemma response_is_transfer (N : Z) (w : R) :
  (0 ≤ N)%Z →
  response_from 0 (replicate (Z.to_nat N) (1 / IZR N)) w = transfer (Z.to_nat N) w.
Proof.
  intros HN. rewrite response_from_replicate. unfold transfer.
  by rewrite INR_to_nat.
Qed.

Lemma transfer_at_0 (N : nat) : (1 ≤ N)%nat → transfer N 0 = (1, 0).
Proof.
  intros HN. unfold transfer.
  assert (INR N ≠ 0) as HN0 by (apply not_0_INR; lia).
  f_equal.
  - rewrite (sum_below_ext _ _ (λ _, 1 / INR N)).
    + rewrite sum_below_const. by field.
    + intros n _. rewrite Rmult_0_l, cos_0. lra.
  - rewrite (sum_below_ext _ _ (λ _, 0)).
    + rewrite sum_below_const. lra.
    + intros n _. rewrite Rmult_0_l, sin_0. lra.
Qed.

Lemma np_abs_1 : np_abs (1, 0) = 1.
Proof.
  unfold np_abs. simpl. replace (1 * 1 + 0 * 0) with 1 by lra. apply sqrt_1.
Qed.

Lemma np_angle_1 : np_angle (1, 0) = 0.
Proof.
  unfold np_angle, arctan2. simpl.
  destruct (Rlt_dec 0 1) as [_|Hn]; [|lra].
  replace (0 / 1) with 0 by lra. apply atan_0.
Qed.

Lemma np_linspace_open_length (stop : R) (num : nat) :
  length (np_linspace_open stop num) = num.
Proof. unfold np_linspace_open. by rewrite length_fmap, length_seq. Qed.

Lemma np_linspace_open_lookup (stop : R) (num k : nat) :
  (k < num)%nat →
  np_linspace_open stop num !! k = Some (INR k * (stop / INR num)).
Proof.
  intros Hk. unfold np_linspace_open.
  by rewrite list_lookup_fmap, lookup_seq_lt by done.
Qed.

(** What [get_frequency_response] returns for a window size of at
    least one and a number of points that is not negative. *)
Lemma get_frequency_response_R (self : t R) (P : Z) :
  (1 ≤ window_size self)%Z →
  (0 ≤ P)%Z →
  get_frequency_response P self =
    (Ok ((λ w, w / (2 * PI)) <$> np_linspace_open PI (Z.to_nat P),
         np_abs <$> (transfer (Z.to_nat (window_size self))
                       <$> np_linspace_open PI (Z.to_nat P)),
         np_angle <$> (transfer (Z.to_nat (window_size self))
                         <$> np_linspace_open PI (Z.to_nat P))),
     self).
Proof.
  intros HN HP. unfold get_frequency_response, mbind, method_bind.
  rewrite get_impulse_response_R by lia.
  unfold eval, freqz. destruct (Z.ltb_spec P 0); [lia|].
  destruct (replicate (Z.to_nat (window_size self)) (1 / IZR (window_size self)))
    as [|c h] eqn:Hh.
  { apply (f_equal length) in Hh. rewrite length_replicate in Hh. simpl in Hh. lia. }
  rewrite <- Hh.
  unfold mret, method_ret. simpl.
  assert (response_from 0
            (replicate (Z.to_nat (window_size self)) (1 / IZR (window_size self)))
            <$> np_linspace_open PI (Z.to_nat P)
          = transfer (Z.to_nat (window_size self))
              <$> np_linspace_open PI (Z.to_nat P)) as ->; [|done].
  apply list_fmap_ext. intros k w _. apply response_is_transfer. lia.
Qed.

(** The [k]-th frequency, in cycles per sample. *)
Lemma frequency_value (P : Z) (k : nat) :
  (1 ≤ P)%Z →
  INR k * (PI / INR (Z.to_nat P)) / (2 * PI) = INR k / (2 * IZR P).
Proof.
  intros HP. rewrite INR_to_nat by lia. field.
  split; [apply not_0_IZR; lia | apply PI_neq0].
Qed.

End Response.

(** C8, as the code has it: for every window size [N >= 1] and every
    number of points [P >= 1], [get_frequency_response(P)] returns
    three sequences of length [P].  The [k]-th frequency is
    [k / (2 P)] cycles per sample, that is [w_k = pi k / P] in angular
    terms: [P] equally spaced points from [0] on, all in [[0, 1/2)],
    with [1/2] itself left out.  At each point the magnitude is the
    modulus and the phase is the [arctan2] of the imaginary and real
    part of the sum over [n < N] of [(1/N) exp(-j w_k n)].  At
    frequency [0] the magnitude is [1] and the phase is [0]. *)
Theorem frequency_response_contract (self : t R) (P : Z) :
  (1 ≤ window_size self)%Z →
  (1 ≤ P)%Z →
  ∃ frequencies magnitude phase,
    get_frequency_response P self = (Ok (frequencies, magnitude, phase), self)
    ∧ length frequencies = Z.to_nat P
    ∧ length magnitude = Z.to_nat P
    ∧ length phase = Z.to_nat P
    ∧ (∀ k, k < Z.to_nat P →
         let H := transfer (Z.to_nat (window_size self)) (PI * INR k / IZR P) in
         frequencies !! k = Some (INR k / (2 * IZR P))%R
         ∧ (0 <= INR k / (2 * IZR P) < 1 / 2)%R
         ∧ magnitude !! k = Some (np_abs H)
         ∧ phase !! k = Some (arctan2 H.2 H.1))
    ∧ frequencies !! 0 = Some 0%R
    ∧ magnitude !! 0 = Some 1%R
    ∧ phase !! 0 = Some 0%R.
Proof.
  intros HN HP.
  assert (IZR P ≠ 0)%R as HP0 by (apply not_0_IZR; lia).
  assert (0 < IZR P)%R as HPpos by (apply IZR_lt; lia).
  eexists _, _, _. split; [apply get_frequency_response_R; lia|].
  rewrite !length_fmap, np_linspace_open_length.
  do 3 (split; [done|]).
  assert (∀ k, INR k * (PI / INR (Z.to_nat P)) = PI * INR k / IZR P)%R as Hw.
  { intros k. rewrite INR_to_nat by lia. by field. }
  split; [|split; [|split]].
  - intros k Hk H.
    rewrite !list_lookup_fmap, np_linspace_open_lookup by done. simpl.
    rewrite frequency_value by done. subst H. rewrite Hw.
    split; [done|].
    assert (0 <= INR k < IZR P)%R as [Hk0 HkP].
    { split; [apply pos_INR|]. rewrite <- INR_to_nat by lia. by apply lt_INR. }
    split; [|by split].
    replace (INR k / (2 * IZR P))%R with (INR k * / IZR P * / 2)%R by by field.
    assert (0 < / IZR P)%R as Hinv by by apply Rinv_0_lt_compat.
    assert (INR k * / IZR P < 1)%R.
    { replace 1%R with (IZR P * / IZR P)%R by by field.
      by apply Rmult_lt_compat_r. }
    assert (0 <= INR k * / IZR P)%R by by apply Rmult_le_pos; [|lra].
    lra.
  - rewrite list_lookup_fmap, np_linspace_open_lookup by lia. simpl. f_equal. lra.
  - rewrite !list_lookup_fmap, np_linspace_open_lookup by lia. simpl.
    rewrite Rmult_0_l, transfer_at_0 by lia. by rewrite np_abs_1.
  - rewrite !list_lookup_fmap, np_linspace_open_lookup by lia. simpl.
    rewrite Rmult_0_l, transfer_at_0 by lia. by rewrite np_angle_1.
Qed.

Lemma frequency_response_contract_witness :
  ∃ frequencies magnitude phase,
    get_frequency_response 4 (Self 3 [0; 0; 0] 0 0)%R
      = (Ok (frequencies, magnitude, phase), Self 3 [0; 0; 0] 0 0)%R
    ∧ length frequencies = Z.to_nat 4
    ∧ length magnitude = Z.to_nat 4
    ∧ length phase = Z.to_nat 4
    ∧ (∀ k, k < Z.to_nat 4 →
         let H := transfer (Z.to_nat 3) (PI * INR k / IZR 4) in
         frequencies !! k = Some (INR k / (2 * IZR 4))%R
         ∧ (0 <= INR k / (2 * IZR 4) < 1 / 2)%R
         ∧ magnitude !! k = Some (np_abs H)
         ∧ phase !! k = Some (arctan2 H.2 H.1))
    ∧ frequencies !! 0 = Some 0%R
    ∧ magnitude !! 0 = Some 1%R
    ∧ phase !! 0 = Some 0%R.
Proof.
  apply (frequency_response_contract (Self 3 [0; 0; 0] 0 0)%R 4); simpl; lia.
Defined.

(** C8 as the claim states it asks for points that span [[0, 1/2]].
    They do not: the grid leaves its end point out.  With two points
    the frequencies are [0] and [1/4], and [1/2] is not among them. *)
Lemma frequency_grid_leaves_out_half :
  ∃ frequencies magnitude phase,
    get_frequency_response 2 (Self 1 [0] 0 0)%R
      = (Ok (frequencies, magnitude, phase), Self 1 [0] 0 0)%R
    ∧ frequencies = [0; 1 / 4]%R
    ∧ last frequencies ≠ Some (1 / 2)%R
    ∧ (1 / 2)%R ∉ frequencies.
Proof.
  eexists _, _, _. split; [apply get_frequency_response_R; simpl; lia|].
  assert ((λ w, w / (2 * PI))%R <$> np_linspace_open PI (Z.to_nat 2)
          = [0; 1 / 4]%R) as ->.
  { unfold np_linspace_open. simpl. pose proof PI_neq0.
    f_equal; [by field | f_equal; by field]. }
  split; [done|]. split.
  - simpl. intros [= Heq]. lra.
  - intros Hin. apply list_elem_of_In in Hin. simpl in Hin.
    destruct Hin as [Heq|[Heq|[]]]; lra.
Qed.

(** ** The responses and the streaming state *)

(** C9: [get_impulse_response] and [get_frequency_response] leave the
    object as it was (buffer, write index and running sum included),
    and what they return or raise depends on the window size (and the
    number of points) alone: two averagers of equal window size get the
    same answer, whatever samples they have processed. *)
Theorem responses_are_pure :
  (∀ (A : Type) (HA : Scalar A) (self : t A),
     (get_impulse_response self).2 = self)
  ∧ (∀ (A : Type) (HA : Scalar A) (self1 self2 : t A),
       window_size self1 = window_size self2 →
       (get_impulse_response self1).1 = (get_impulse_response self2).1)
  ∧ (∀ (self : t R) (num_points : Z),
       (get_frequency_response num_points self).2 = self)
  ∧ (∀ (self1 self2 : t R) (num_points : Z),
       window_size self1 = window_size self2 →
       (get_frequency_response num_points self1).1
         = (get_frequency_response num_points self2).1).
Proof.
  split; [|split; [|split]].
  - intros A HA self. unfold get_impulse_response. run_method.
    by destruct (np_ones (window_size self)).
  - intros A HA self1 self2 Heq. unfold get_impulse_response. run_method.
    rewrite Heq. by destruct (np_ones (window_size self2)).
  - intros self P. unfold get_frequency_response, get_impulse_response.
    run_method.
    destruct (np_ones (window_size self)); simpl; [|done].
    by destruct (freqz _ P).
  - intros self1 self2 P Heq.
    unfold get_frequency_response, get_impulse_response. run_method.
    rewrite Heq.
    destruct (np_ones (window_size self2)); simpl; [|done].
    by destruct (freqz _ P).
Qed.

Lemma responses_are_pure_witness :
  (get_impulse_response (Self 2 [0; 0] 0 0)%R).1
    = (get_impulse_response (Self 2 [5; 7] 1 12)%R).1
  ∧ (get_frequency_response 4 (Self 2 [0; 0] 0 0)%R).1
    = (get_frequency_response 4 (Self 2 [5; 7] 1 12)%R).1.
Proof.
  destruct responses_are_pure as (_ & Hh & _ & Hf).
  split; [apply Hh | apply Hf]; reflexivity.
Defined.

(** ** Construction and failure *)

(** C4 as the claim states it has construction raise for a window size
    of zero, and [get_frequency_response] for zero points.  They do
    not: [MovingAverageFilter(0)] returns an object, and
    [get_frequency_response(0)] on an averager of window size one
    returns three empty sequences. *)
Lemma zero_is_accepted :
  __init__ (A:=PrimFloat.float) 0 = Ok (Self 0 [] 0 PrimFloat.zero)
  ∧ get_frequency_response 0 (Self 1 [0] 0 0)%R
    = (Ok ([], [], []), Self 1 [0] 0 0)%R.
Proof. split; reflexivity. Qed.

(** C4, as the code has it: construction raises ([ValueError], from
    [np.zeros]) for every negative window size, and then returns no
    object; it accepts zero, with an empty buffer, and every window
    size from one on, with a well-formed averager.
    [get_frequency_response] raises ([ValueError], from [freqz]) for
    every negative number of points; for zero points it returns three
    empty sequences on an averager of window size at least one, and
    raises [IndexError] (from [freqz], which finds no coefficient) on
    the averager of window size zero: no [ValueError] there either.  On
    an averager of window size at least one no method raises:
    [filter_sample], [filter_signal] and [get_impulse_response] for any
    arithmetic of the samples, [get_frequency_response] for every
    number of points that is not negative. *)
Theorem validation_as_coded (A : Type) (HA : Scalar A) :
  (∀ n, (n < 0)%Z → __init__ (A:=A) n = Raise ValueError)
  ∧ __init__ (A:=A) 0 = Ok (Self 0 [] 0 zero)
  ∧ (∀ n, (1 ≤ n)%Z → ∃ self : t A, __init__ n = Ok self ∧ well_formed self)
  ∧ (∀ (self : t R) (num_points : Z),
       (0 ≤ window_size self)%Z → (num_points < 0)%Z →
       get_frequency_response num_points self = (Raise ValueError, self))
  ∧ (∀ self : t R,
       (1 ≤ window_size self)%Z →
       get_frequency_response 0 self = (Ok ([], [], []), self))
  ∧ (∀ self : t R,
       window_size self = 0%Z →
       get_frequency_response 0 self = (Raise IndexError, self))
  ∧ (∀ self : t A,
       well_formed self →
       (∀ x, ∃ y self', filter_sample x self = (Ok y, self') ∧ well_formed self')
       ∧ (∀ xs : list A, ∃ ys self',
            filter_signal xs self = (Ok ys, self') ∧ well_formed self')
       ∧ (∃ h, get_impulse_response self = (Ok h, self)))
  ∧ (∀ (self : t R) (num_points : Z),
       (1 ≤ window_size self)%Z → (0 ≤ num_points)%Z →
       ∃ response, get_frequency_response num_points self = (Ok response, self)).
Proof.
  split; [|split; [|split; [|split; [|split; [|split; [|split]]]]]].
  - intros n Hn. unfold __init__, np_zeros.
    by destruct (Z.ltb_spec n 0); [|lia].
  - reflexivity.
  - intros n Hn. eexists. split; [apply init_positive; lia|].
    by apply init_well_formed.
  - intros self P HN HP. unfold get_frequency_response, mbind, method_bind.
    rewrite get_impulse_response_R by done.
    unfold eval, freqz. by destruct (Z.ltb_spec P 0); [|lia].
  - intros self HN. by rewrite get_frequency_response_R by lia.
  - intros self HN. unfold get_frequency_response, mbind, method_bind.
    rewrite get_impulse_response_R by lia. by rewrite HN.
  - intros self Hwf. split; [|split].
    + intros x. destruct (filter_sample_well_formed self x Hwf) as (y & self' & Hy & Hwf' & _).
      by exists y, self'.
    + intros xs. rewrite filter_signal_streams.
      destruct (filter_samples_well_formed xs self Hwf) as (ys & self' & Hys & _ & Hwf' & _).
      by exists ys, self'.
    + destruct Hwf as (HN & _).
      unfold get_impulse_response, mbind, method_bind, get, eval, np_ones.
      destruct (Z.ltb_spec (window_size self) 0); [lia|]. by eexists.
  - intros self P HN HP. eexists. apply get_frequency_response_R; lia.
Qed.

Lemma validation_as_coded_witness :
  __init__ (A:=R) (-1) = Raise ValueError
  ∧ (∃ self : t R, __init__ 3 = Ok self ∧ well_formed self)
  ∧ get_frequency_response (-1) (Self 2 [0; 0] 0 0)%R
    = (Raise ValueError, Self 2 [0; 0] 0 0)%R
  ∧ get_frequency_response 0 (Self 2 [0; 0] 0 0)%R
    = (Ok ([], [], []), Self 2 [0; 0] 0 0)%R
  ∧ get_frequency_response 0 (Self 0 [] 0 0)%R
    = (Raise IndexError, Self 0 [] 0 0)%R
  ∧ (∃ y self', filter_sample 3%R (Self 2 [5; 7] 1 12)%R = (Ok y, self')
       ∧ well_formed self')
  ∧ (∃ response,
       get_frequency_response 4 (Self 2 [0; 0] 0 0)%R
         = (Ok response, Self 2 [0; 0] 0 0)%R).
Proof.
  destruct (validation_as_coded R R_Scalar)
    as (Hneg & _ & Hpos & Hfneg & Hf0 & Hf00 & Hwf & Hf).
  split; [apply Hneg; lia|].
  split; [apply Hpos; lia|].
  split; [apply Hfneg; simpl; lia|].
  split; [apply Hf0; simpl; lia|].
  split; [apply Hf00; reflexivity|].
  split; [|apply Hf; simpl; lia].
  apply (Hwf (Self 2 [5; 7] 1 12)%R). repeat split; simpl; lia.
Defined.

(** C10 as the claim states it has the calls on an averager of window
    size zero fail at the index update and the quotient.  They fail
    before: [self.buffer[self.index]] on the empty buffer raises
    [IndexError], not the [ZeroDivisionError] of [%], and neither the
    index update nor the quotient is reached. *)
Lemma zero_window_fails_at_the_buffer :
  __init__ (A:=PrimFloat.float) 0 = Ok (Self 0 [] 0 PrimFloat.zero)
  ∧ filter_sample PrimFloat.one (Self 0 [] 0 PrimFloat.zero)
    = (Raise IndexError, Self 0 [] 0 PrimFloat.zero)
  ∧ (filter_sample PrimFloat.one (Self 0 [] 0 PrimFloat.zero)).1
    ≠ Raise ZeroDivisionError.
Proof. split; [reflexivity|]. split; [reflexivity|]. discriminate. Qed.

(** C10, as the code has it: construction with a window size of zero
    raises nothing and returns an averager with an empty buffer, index
    0 and sum 0.  Every call of [filter_sample] on it fails, whatever
    the sample: the read of [buffer[index]] raises [IndexError], and the
    averager is left as it was, so that the next call fails the same
    way; [filter_signal] fails likewise on any input that is not
    empty. *)
Theorem zero_window_filter_fails (A : Type) (HA : Scalar A) :
  __init__ (A:=A) 0 = Ok (Self 0 [] 0 zero)
  ∧ (∀ x : A,
       filter_sample x (Self 0 [] 0 zero) = (Raise IndexError, Self 0 [] 0 zero))
  ∧ (∀ (x : A) (xs : list A),
       filter_samples (x :: xs) (Self 0 [] 0 zero)
         = (Raise IndexError, Self 0 [] 0 zero)
       ∧ filter_signal (x :: xs) (Self 0 [] 0 zero)
         = (Raise IndexError, Self 0 [] 0 zero)).
Proof.
  split; [reflexivity|]. split; [reflexivity|].
  intros x xs. rewrite filter_signal_streams. by split.
Qed.

(** * Further properties of the filter and of the demonstrations *)

(** ** Filtering in chunks, and the ring *)

Section Chunks.
Context {A : Type} `{Scalar A}.

Lemma filter_samples_app (xs ys : list A) (self : t A) :
  filter_samples (xs ++ ys) self
    = (a ← filter_samples xs; b ← filter_samples ys; mret (a ++ b)) self.
Proof.
  revert self. induction xs as [|x xs IH]; intros self; simpl.
  - run_method. simpl. by destruct (filter_samples ys self) as [[b|e] self'].
  - run_method.
    destruct (filter_sample x self) as [[y|e] s1]; [|done].
    rewrite IH. run_method.
    destruct (filter_samples xs s1) as [[a|e] s2]; [|done].
    by destruct (filter_samples ys s2) as [[b|e] self'].
Qed.

(** Where [filter_samples] leaves the ring. *)
Lemma filter_samples_ring (xs : list A) (self : t A) :
  well_formed self →
  ∃ ys self',
    filter_samples xs self = (Ok ys, self')
    ∧ well_formed self'
    ∧ window_size self' = window_size self
    ∧ index self' = ((index self + Z.of_nat (length xs)) mod window_size self)%Z
    ∧ (∀ m x, xs !! m = Some x →
         (Z.of_nat (length xs) ≤ Z.of_nat m + window_size self)%Z →
         buffer self' !! Z.to_nat ((index self + Z.of_nat m) mod window_size self)
           = Some x)
    ∧ (∀ j, (Z.of_nat (length xs) ≤ j < window_size self)%Z →
         buffer self' !! Z.to_nat ((index self + j) mod window_size self)
           = buffer self !! Z.to_nat ((index self + j) mod window_size self)).
Proof.
  revert self. induction xs as [|x xs IH]; intros self Hwf.
  - exists [], self. pose proof Hwf as (HN & Hlen & Hi).
    split; [done|]. split; [done|]. split; [done|].
    split; [by rewrite Z.add_0_r, Z.mod_small|]. by split.
  - pose proof Hwf as (HN & Hlen & Hi).
    destruct (lookup_lt_is_Some_2 _ _ (well_formed_slot _ Hwf)) as [oldest Hold].
    pose proof (filter_sample_step self x oldest Hwf Hold) as Hstep.
    destruct (filter_sample_well_formed self x Hwf) as (y & self1 & Hy & Hwf1 & HN1).
    rewrite Hstep in Hy. injection Hy as <- <-.
    destruct (IH _ Hwf1) as (ys & self2 & Hys & Hwf2 & HN2 & Hi2 & Hnew & Hold2).
    simpl in HN2, Hi2, Hnew, Hold2.
    eexists _, self2. simpl filter_samples. unfold mbind, method_bind.
    rewrite Hstep, Hys. split; [reflexivity|]. split; [done|]. split; [done|].
    simpl length.
    assert (∀ j, ((index self + 1) mod window_size self + j) mod window_size self
                 = (index self + (1 + j)) mod window_size self)%Z as Hshift.
    { intros j. rewrite Zplus_mod_idemp_l. f_equal. lia. }
    split; [|split].
    + rewrite Hi2, Hshift. f_equal. lia.
    + intros [|m] x' Hx' Hm; simpl in Hx'.
      * injection Hx' as <-. rewrite Z.add_0_r, Z.mod_small by lia.
        specialize (Hold2 (window_size self - 1)%Z ltac:(lia)).
        rewrite Hshift in Hold2.
        replace (index self + (1 + (window_size self - 1)))%Z
          with (index self + 1 * window_size self)%Z in Hold2 by lia.
        rewrite Z_mod_plus_full, Z.mod_small in Hold2 by lia.
        rewrite Hold2. apply list_lookup_insert_eq. lia.
      * specialize (Hnew m x' Hx' ltac:(lia)). rewrite Hshift in Hnew.
        by replace (index self + Z.of_nat (S m))%Z
          with (index self + (1 + Z.of_nat m))%Z by lia.
    + intros j Hj. specialize (Hold2 (j - 1)%Z ltac:(lia)).
      rewrite Hshift in Hold2.
      replace (1 + (j - 1))%Z with j in Hold2 by lia.
      rewrite Hold2. apply list_lookup_insert_ne.
      intros Heq. apply Z2Nat.inj in Heq; [|lia|apply Z.mod_pos_bound; lia].
      symmetry in Heq. revert Heq. apply index_shift_misses; lia.
Qed.

End Chunks.

(** ** The filter as a linear time-invariant system *)

Section Time.
Local Open Scope R_scope.

Lemma window_recent (N : nat) (fed : list R) :
  window N fed = replicate (N - length fed) 0 ++ recent N fed.
Proof.
  unfold window, recent. by rewrite drop_app, drop_replicate, length_replicate.
Qed.

Lemma window_sum_recent (N : nat) (fed : list R) :
  py_sum (window N fed) = py_sum (recent N fed).
Proof. rewrite window_recent, py_sum_app, py_sum_replicate. lra. Qed.

Lemma apply_filter_outputs (N : Z) (xs : list R) :
  (1 ≤ N)%Z →
  ∃ ys,
    apply_filter N xs = Ok ys
    ∧ length ys = length xs
    ∧ ∀ k, (k < length xs)%nat →
        ys !! k = Some (py_sum (window (Z.to_nat N) (take (S k) xs)) / IZR N).
Proof.
  intros HN. unfold apply_filter. rewrite init_R by lia.
  rewrite filter_signal_streams.
  destruct (fresh_outputs N xs HN) as (ys & self' & Hys & Hlen & Hout).
  exists ys. by rewrite Hys.
Qed.

(** On an array of any element type: the filtered floats, stored in
    that type. *)
Lemma apply_filter_stores {B : Type} `{Dtype R B} (N : Z) (xs : list B) :
  apply_filter N xs =
    match apply_filter N (item <$> xs) with
    | Ok ys => Ok (store <$> ys)
    | Raise e => Raise e
    end.
Proof.
  unfold apply_filter. destruct (__init__ N) as [ma_filter|e]; [|done].
  rewrite filter_signal_stores, filter_signal_streams.
  by destruct (filter_samples (item <$> xs) ma_filter) as [[ys|e] self'].
Qed.

(** Two results of the same length that agree position by position. *)
Lemma outputs_eq (n : nat) (ys zs : list R) (f : nat → R) :
  length ys = n → length zs = n →
  (∀ k, (k < n)%nat → ys !! k = Some (f k)) →
  (∀ k, (k < n)%nat → zs !! k = Some (f k)) →
  ys = zs.
Proof.
  intros Hy Hz Hfy Hfz. apply list_eq. intros k.
  destruct (decide (k < n)%nat) as [Hk|Hk].
  - by rewrite Hfy, Hfz.
  - by rewrite !lookup_ge_None_2 by lia.
Qed.


Lemma recent_length (N : nat) (fed : list R) : (length (recent N fed) ≤ N)%nat.
Proof. unfold recent. rewrite length_drop. lia. Qed.

Lemma window_zeros_prefix (N d : nat) (fed : list R) :
  window N (replicate d 0 ++ fed) = window N fed.
Proof.
  unfold window. rewrite length_app, length_replicate.
  rewrite (assoc_L (++)), <- replicate_add, (Nat.add_comm N d), replicate_add.
  rewrite <- (assoc_L (++)), <- drop_drop.
  by rewrite drop_app_length' by (by rewrite length_replicate).
Qed.

(** Once [N] samples are fed the window is made of them alone. *)
Lemma window_forgets (N : nat) (before fed : list R) :
  (N ≤ length fed)%nat → window N (before ++ fed) = recent N fed.
Proof.
  intros HN. unfold window, recent. rewrite (assoc_L (++)), length_app.
  rewrite drop_app_ge by (rewrite length_app, length_replicate; lia).
  f_equal. rewrite length_app, length_replicate. lia.
Qed.

Lemma sum_below_scale (N : nat) (c : R) (f : nat → R) :
  sum_below N (λ n, c * f n) = c * sum_below N f.
Proof. induction N as [|N IH]; simpl; [lra | rewrite IH; lra]. Qed.

Lemma sum_below_delayed (N k : nat) (xs : list R) :
  (k < length xs)%nat →
  sum_below N (delayed xs k) = py_sum (recent N (take (S k) xs)).
Proof.
  intros Hk. unfold recent. rewrite length_take_le by lia.
  induction N as [|N IH].
  - simpl. replace (S k - 0)%nat with (S k) by lia.
    by rewrite drop_ge by (rewrite length_take_le; lia).
  - simpl sum_below. rewrite IH. unfold delayed. case_decide as HNk.
    + replace (S k - N)%nat with (S (k - N)) by lia.
      replace (S k - S N)%nat with (k - N)%nat by lia.
      rewrite (drop_S _ (nth (k - N) xs 0) (k - N)).
      * rewrite py_sum_cons. lra.
      * rewrite lookup_take_lt by lia.
        destruct (nth_lookup_or_length xs (k - N) 0) as [->|]; [done|lia].
    + replace (S k - N)%nat with 0%nat by lia.
      replace (S k - S N)%nat with 0%nat by lia. lra.
Qed.

Lemma py_sum_mix (a b : R) (xs ys : list R) :
  length xs = length ys →
  py_sum (mix a b xs ys) = a * py_sum xs + b * py_sum ys.
Proof.
  revert ys. induction xs as [|x xs IH]; intros [|y ys] Hlen; simpl in *; try done.
  - rewrite py_sum_nil. lra.
  - unfold mix in *. simpl. rewrite !py_sum_cons, IH by lia. lra.
Qed.

Lemma recent_take_mix (N k : nat) (a b : R) (xs ys : list R) :
  length xs = length ys →
  recent N (take (S k) (mix a b xs ys))
    = mix a b (recent N (take (S k) xs)) (recent N (take (S k) ys)).
Proof.
  intros Hlen. unfold recent, mix.
  rewrite !length_take, length_zip_with, <- Hlen, Nat.min_id.
  by rewrite zip_with_take, zip_with_drop.
Qed.

Lemma py_sum_bound (M : R) (xs : list R) :
  Forall (λ x, Rabs x <= M) xs → Rabs (py_sum xs) <= INR (length xs) * M.
Proof.
  induction 1 as [|x xs Hx _ IH].
  - rewrite py_sum_nil, Rabs_R0. simpl. lra.
  - rewrite py_sum_cons. simpl length. rewrite S_INR.
    pose proof (Rabs_triang x (py_sum xs)). lra.
Qed.

Lemma filter_samples_offset (xs : list R) (self : t R) :
  well_formed self →
  ∃ ys self', filter_samples xs self = (Ok ys, self')
    ∧ well_formed self'
    ∧ sum self' - py_sum (buffer self') = sum self - py_sum (buffer self).
Proof.
  revert self. induction xs as [|x xs IH]; intros self Hwf.
  - by exists [], self.
  - destruct (lookup_lt_is_Some_2 _ _ (well_formed_slot _ Hwf)) as [oldest Hold].
    pose proof (filter_sample_step_R self x oldest Hwf Hold) as Hstep.
    destruct (filter_sample_well_formed self x Hwf) as (y & self1 & Hy & Hwf1 & _).
    rewrite Hstep in Hy. injection Hy as <- <-.
    destruct (IH _ Hwf1) as (ys & self2 & Hys & Hwf2 & Hoff).
    eexists _, self2. simpl. unfold mbind, method_bind.
    rewrite Hstep, Hys. split; [reflexivity|]. split; [done|].
    rewrite Hoff. simpl. rewrite (py_sum_insert _ _ oldest) by done. lra.
Qed.

End Time.

Section TimeTheorems.
Local Open Scope R_scope.

(** X3: in exact arithmetic, a freshly constructed averager of window
    size [N >= 1] turns an array [xs], of floats or of integers, into an
    array of the same length and element type.  Its [k]-th value is the
    sum of the last [N] inputs up to [xs[k]] (of all [k + 1] of them
    while there are fewer) divided by [N], stored in that element type:
    as it is in an array of floats, without its fraction in an array of
    integers. *)
Theorem sliding_mean {B : Type} `{Dtype R B} (N : Z) (xs : list B) :
  (1 ≤ N)%Z →
  ∃ ys,
    apply_filter N xs = Ok ys
    ∧ length ys = length xs
    ∧ ∀ k, (k < length xs)%nat →
        ys !! k
          = Some (store (py_sum (recent (Z.to_nat N) (take (S k) (item <$> xs)))
                         / IZR N)).
Proof.
  intros HN. rewrite apply_filter_stores.
  destruct (apply_filter_outputs N (item <$> xs) HN) as (ys & Hys & Hlen & Hout).
  rewrite length_fmap in Hlen, Hout.
  exists (store <$> ys). rewrite Hys. split; [done|].
  split; [by rewrite length_fmap|].
  intros k Hk. by rewrite list_lookup_fmap, Hout, window_sum_recent.
Qed.

Lemma sliding_mean_witness :
  (∃ ys : list R,
     apply_filter 2 [1; 2; 3] = Ok ys
     ∧ length ys = 3%nat
     ∧ ∀ k, (k < 3)%nat →
         ys !! k = Some (py_sum (recent (Z.to_nat 2) (take (S k) [1; 2; 3])) / IZR 2))
  ∧ (∃ ys : list Z,
       apply_filter (A:=R) 2 [1; 2; 3]%Z = Ok ys
       ∧ length ys = 3%nat
       ∧ ∀ k, (k < 3)%nat →
           ys !! k
             = Some (py_int (py_sum (recent (Z.to_nat 2)
                                       (take (S k) (IZR <$> [1; 2; 3]%Z))) / IZR 2))).
Proof.
  split.
  - exact (sliding_mean (B:=R) 2 [1; 2; 3] ltac:(lia)).
  - exact (sliding_mean (B:=Z) 2 [1; 2; 3]%Z ltac:(lia)).
Defined.

(** X4: in exact real arithmetic the filter is the convolution with
    its impulse response: on a fresh averager of window size [N >= 1]
    and an array [xs] of floats the [k]-th output is the sum over [n] of
    [h[n] * xs[k - n]], with [h] what [get_impulse_response] returns and
    no input before the first.  On binary64 the outputs also carry the
    rounding kept in the running sum, which the convolution does not
    have ([Binary64.rounding_stays_in_the_outputs]). *)
Theorem filter_is_convolution (N : Z) (xs : list R) :
  (1 ≤ N)%Z →
  ∃ ma_filter h ys,
    __init__ N = Ok ma_filter
    ∧ get_impulse_response ma_filter = (Ok h, ma_filter)
    ∧ apply_filter N xs = Ok ys
    ∧ ∀ k, (k < length xs)%nat → ys !! k = Some (convolve h xs k).
Proof.
  intros HN. destruct (apply_filter_outputs N xs HN) as (ys & Hys & Hlen & Hout).
  eexists _, _, ys. split; [apply init_R; lia|].
  split; [apply (get_impulse_response_R (Self N _ 0 0)); simpl; lia|].
  split; [done|]. intros k Hk. rewrite Hout by done. f_equal. simpl.
  unfold convolve. rewrite length_replicate.
  rewrite (sum_below_ext _ _ (λ n, 1 / IZR N * delayed xs k n)).
  - rewrite sum_below_scale, sum_below_delayed, window_sum_recent by done.
    field. apply not_0_IZR. lia.
  - intros n Hn. f_equal.
    by rewrite (nth_lookup_Some _ _ _ (1 / IZR N)) by by apply lookup_replicate_2.
Qed.

Lemma filter_is_convolution_witness :
  ∃ ma_filter h ys,
    __init__ 2 = Ok ma_filter
    ∧ get_impulse_response ma_filter = (Ok h, ma_filter)
    ∧ apply_filter 2 [1; 2; 3] = Ok ys
    ∧ ∀ k, (k < 3)%nat → ys !! k = Some (convolve h [1; 2; 3] k).
Proof. apply (filter_is_convolution 2 [1; 2; 3]). lia. Defined.

Lemma apply_filter_mix (N : Z) (a b : R) (xs ys : list R) :
  (1 ≤ N)%Z →
  length xs = length ys →
  ∃ fx fy,
    apply_filter N xs = Ok fx
    ∧ apply_filter N ys = Ok fy
    ∧ apply_filter N (mix a b xs ys) = Ok (mix a b fx fy).
Proof.
  intros HN Hlen.
  destruct (apply_filter_outputs N xs HN) as (fx & Hfx & Hlx & Hox).
  destruct (apply_filter_outputs N ys HN) as (fy & Hfy & Hly & Hoy).
  destruct (apply_filter_outputs N (mix a b xs ys) HN) as (fm & Hfm & Hlm & Hom).
  exists fx, fy. split; [done|]. split; [done|]. rewrite Hfm. f_equal.
  assert (length (mix a b xs ys) = length xs) as Hlmix
    by (unfold mix; rewrite length_zip_with; lia).
  rewrite Hlmix in Hlm, Hom.
  apply (outputs_eq (length xs) _ _
           (λ k, py_sum (window (Z.to_nat N) (take (S k) (mix a b xs ys))) / IZR N));
    [done | unfold mix; rewrite length_zip_with; lia | exact Hom |].
  intros k Hk. unfold mix at 1. rewrite lookup_zip_with.
  rewrite Hox, Hoy by lia. simpl. f_equal.
  rewrite !window_sum_recent, recent_take_mix by done.
  rewrite py_sum_mix.
  - field. apply not_0_IZR. lia.
  - unfold recent. rewrite !length_drop, !length_take. lia.
Qed.

(** X6: the filter is time invariant: [d] zeros put before a signal
    put [d] zeros before the filtered signal and change nothing else. *)
Theorem time_invariance (N : Z) (d : nat) (xs : list R) :
  (1 ≤ N)%Z →
  ∃ fx,
    apply_filter N xs = Ok fx
    ∧ apply_filter N (replicate d 0 ++ xs) = Ok (replicate d 0 ++ fx).
Proof.
  intros HN.
  destruct (apply_filter_outputs N xs HN) as (fx & Hfx & Hlx & Hox).
  destruct (apply_filter_outputs N (replicate d 0 ++ xs) HN) as (fd & Hfd & Hld & Hod).
  exists fx. split; [done|]. rewrite Hfd. f_equal.
  rewrite length_app, length_replicate in Hld, Hod.
  apply (outputs_eq (d + length xs) _ _
           (λ k, py_sum (window (Z.to_nat N) (take (S k) (replicate d 0 ++ xs))) / IZR N));
    [done | rewrite length_app, length_replicate; lia | exact Hod |].
  intros k Hk. destruct (decide (k < d)%nat) as [Hkd|Hkd].
  - rewrite lookup_app_l, lookup_replicate_2 by (rewrite ?length_replicate; lia).
    rewrite take_app_le, take_replicate, window_sum_constant
      by (rewrite length_replicate; lia).
    f_equal. lra.
  - rewrite lookup_app_r by (rewrite length_replicate; lia).
    rewrite length_replicate. rewrite Hox by lia. do 3 f_equal.
    rewrite take_app, length_replicate.
    rewrite (take_ge (replicate d 0)) by (rewrite length_replicate; lia).
    rewrite window_zeros_prefix. do 2 f_equal. lia.
Qed.

Lemma time_invariance_witness :
  ∃ fx,
    apply_filter 2 [1; 2] = Ok fx
    ∧ apply_filter 2 (replicate 3 0 ++ [1; 2]) = Ok (replicate 3 0 ++ fx).
Proof. apply (time_invariance 2 3 [1; 2]). lia. Defined.

(** X7: in exact real arithmetic the filter is stable: if every value
    of an array of floats is at most [M] in absolute value, so is every
    output of a fresh averager.  On binary64 an output can pass the
    bound by rounding ([Binary64.constant_signal_rounds]: inputs 0.1,
    output 0.10000000000000002). *)
Theorem bounded_outputs (N : Z) (M : R) (xs : list R) :
  (1 ≤ N)%Z →
  Forall (λ x, Rabs x <= M) xs →
  ∃ ys, apply_filter N xs = Ok ys ∧ Forall (λ y, Rabs y <= M) ys.
Proof.
  intros HN Hxs.
  destruct (apply_filter_outputs N xs HN) as (ys & Hys & Hlen & Hout).
  exists ys. split; [done|]. apply Forall_lookup_2. intros k y Hy.
  assert (k < length xs)%nat as Hk by (rewrite <- Hlen; by eapply lookup_lt_Some).
  rewrite Hout in Hy by done. injection Hy as <-.
  rewrite window_sum_recent.
  assert (0 <= M) as HM.
  { destruct xs as [|x xs']; [simpl in Hk; lia|].
    apply Forall_cons in Hxs as [Hx _]. pose proof (Rabs_pos x). lra. }
  assert (0 < IZR N) as HNpos by (apply IZR_lt; lia).
  pose proof (py_sum_bound M (recent (Z.to_nat N) (take (S k) xs))) as Hb.
  specialize (Hb ltac:(by apply Forall_drop, Forall_take)).
  pose proof (recent_length (Z.to_nat N) (take (S k) xs)) as Hl.
  apply le_INR in Hl. rewrite INR_to_nat in Hl by lia.
  unfold Rdiv. rewrite Rabs_mult, (Rabs_right (/ IZR N)).
  - apply (Rmult_le_reg_r (IZR N)); [done|].
    rewrite Rmult_assoc, Rinv_l, Rmult_1_r by lra.
    etransitivity; [exact Hb|]. rewrite (Rmult_comm M). by apply Rmult_le_compat_r.
  - apply Rle_ge. left. by apply Rinv_0_lt_compat.
Qed.

Lemma bounded_outputs_witness :
  ∃ ys, apply_filter 2 [1; -2] = Ok ys ∧ Forall (λ y, Rabs y <= 2) ys.
Proof.
  apply (bounded_outputs 2 2 [1; -2]); [lia|].
  constructor; [apply Rabs_le; lra|].
  constructor; [apply Rabs_le; lra|]. constructor.
Defined.

(** X5: in exact real arithmetic the filter is linear: for arrays of
    floats [xs] and [ys] of one length and numbers [a] and [b],
    filtering [a * xs + b * ys] gives [a] times the filtered [xs] plus
    [b] times the filtered [ys] (each on a fresh averager of the same
    window size [N >= 1]).  On binary64 the two sides differ by the
    rounding kept in the running sum
    ([Binary64.rounding_stays_in_the_outputs]). *)
Theorem superposition (N : Z) (a b : R) (xs ys : list R) :
  (1 ≤ N)%Z →
  length xs = length ys →
  ∃ fx fy,
    apply_filter N xs = Ok fx
    ∧ apply_filter N ys = Ok fy
    ∧ apply_filter N (mix a b xs ys) = Ok (mix a b fx fy).
Proof.
  intros HN Hlen.
  destruct (apply_filter_mix N a b xs ys HN Hlen) as (fx & fy & Hfx & Hfy & Hmix).
  exists fx, fy. by repeat split.
Qed.

Lemma superposition_witness :
  ∃ fx fy,
    apply_filter 2 [1; 2] = Ok fx
    ∧ apply_filter 2 [3; 4] = Ok fy
    ∧ apply_filter 2 (mix 5 7 [1; 2] [3; 4]) = Ok (mix 5 7 fx fy).
Proof. apply (superposition 2 5 7 [1; 2] [3; 4]); [lia | reflexivity]. Defined.

End TimeTheorems.

(** ** The filter from any state *)

Section AnyState.
Local Open Scope R_scope.

(** A well-formed averager whose running sum is the sum of its buffer
    holds the window its buffer spells from the write index on. *)
Lemma consistent_holds_window (self : t R) :
  well_formed self →
  sum self = py_sum (buffer self) →
  holds_window (Z.to_nat (window_size self))
    (drop (Z.to_nat (index self)) (buffer self)
       ++ take (Z.to_nat (index self)) (buffer self))
    self.
Proof.
  intros Hwf Hsum. pose proof Hwf as (HN & Hlen & Hi).
  set (i := Z.to_nat (index self)). set (N := Z.to_nat (window_size self)).
  assert (length (buffer self) = N) as HlenN by lia.
  assert (i < N)%nat as HiN by lia.
  assert (window N (drop i (buffer self) ++ take i (buffer self))
          = drop i (buffer self) ++ take i (buffer self)) as Hw.
  { unfold window. rewrite drop_app_length'; [done|].
    rewrite length_replicate, length_app, length_drop, length_take. lia. }
  split; [done|]. split; [lia|]. split.
  - rewrite Hw, py_sum_app, Hsum.
    rewrite <- (take_drop i (buffer self)) at 1. rewrite py_sum_app. lra.
  - intros j Hj. rewrite Hw. fold N in Hj.
    replace (Z.of_nat N) with (window_size self) by (unfold N; lia).
    destruct (decide (i + j < N)%nat) as [Hlt|Hge].
    + rewrite Z.mod_small by lia.
      rewrite lookup_app_l by (rewrite length_drop; lia).
      rewrite lookup_drop. f_equal. lia.
    + replace (index self + Z.of_nat j)%Z
        with ((index self + Z.of_nat j - window_size self) + 1 * window_size self)%Z
        by lia.
      rewrite Z_mod_plus_full, Z.mod_small by lia.
      rewrite lookup_app_r by (rewrite length_drop; lia).
      rewrite length_drop, lookup_take_lt by lia. f_equal. lia.
Qed.

(** A running sum that is off by [delta] stays off by [delta], and
    every result is off by [delta / window_size]. *)
Lemma filter_samples_shift (delta : R) (xs ys : list R) (self self' : t R) :
  well_formed self →
  filter_samples xs self = (Ok ys, self') →
  filter_samples xs
    (Self (window_size self) (buffer self) (index self) (sum self + delta))
  = (Ok ((λ y, y + delta / IZR (window_size self)) <$> ys),
     Self (window_size self') (buffer self') (index self') (sum self' + delta)).
Proof.
  revert ys self self'. induction xs as [|x xs IH]; intros ys self self' Hwf Hys.
  - simpl in *. unfold mret, method_ret in *. by injection Hys as <- <-.
  - destruct (lookup_lt_is_Some_2 _ _ (well_formed_slot _ Hwf)) as [oldest Hold].
    pose proof (filter_sample_step_R self x oldest Hwf Hold) as Hstep.
    destruct (filter_sample_well_formed self x Hwf) as (y & self1 & Hy & Hwf1 & HN1).
    rewrite Hstep in Hy. injection Hy as <- <-.
    simpl in Hys. unfold mbind, method_bind in Hys. rewrite Hstep in Hys.
    destruct (filter_samples xs _) as [[ys1|e] self2] eqn:Hrest; [|done].
    unfold mret, method_ret in Hys. injection Hys as <- <-.
    specialize (IH _ _ _ Hwf1 Hrest). simpl in IH.
    assert (well_formed
              (Self (window_size self) (buffer self) (index self) (sum self + delta)))
      as Hwfd by done.
    simpl filter_samples. unfold mbind, method_bind.
    rewrite (filter_sample_step_R _ x oldest Hwfd Hold). simpl.
    replace (sum self + delta - oldest + x) with (sum self - oldest + x + delta) by lra.
    rewrite IH. unfold mret, method_ret. simpl. do 3 f_equal.
    field. apply not_0_IZR. destruct Hwf. lia.
Qed.

End AnyState.

(** X1: filtering a signal in two consecutive calls of [filter_signal]
    on the same object gives, put end to end, what one call on the whole
    signal gives: the same results or the same exception, and the same
    final state.  This holds from any state and for any arithmetic. *)
Theorem chunked_filtering {A : Type} `{Scalar A} (xs ys : list A) (self : t A) :
  filter_signal (xs ++ ys) self
    = (a ← filter_signal xs; b ← filter_signal ys; mret (a ++ b)) self.
Proof.
  rewrite filter_signal_streams, filter_samples_app. run_method.
  rewrite filter_signal_streams.
  destruct (filter_samples xs self) as [[a|e] self1]; [|done].
  by rewrite filter_signal_streams.
Qed.

(** X2: the ring after [filter_signal(xs)] on an averager with window
    size [N >= 1] and write index [i]: the window size and the length of
    the buffer are kept, the write index is [(i + len(xs)) mod N], the
    [m]-th sample of [xs] sits in slot [(i + m) mod N] unless a later
    sample, [N] places on, has overwritten it, and the slots the write
    index has not reached keep their values. *)
Theorem ring_contents {A : Type} `{Scalar A} (xs : list A) (self : t A) :
  well_formed self →
  ∃ ys self',
    filter_signal xs self = (Ok ys, self')
    ∧ window_size self' = window_size self
    ∧ length (buffer self') = length (buffer self)
    ∧ index self' = ((index self + Z.of_nat (length xs)) mod window_size self)%Z
    ∧ (∀ m x, xs !! m = Some x →
         (Z.of_nat (length xs) ≤ Z.of_nat m + window_size self)%Z →
         buffer self' !! Z.to_nat ((index self + Z.of_nat m) mod window_size self)
           = Some x)
    ∧ (∀ j, (Z.of_nat (length xs) ≤ j < window_size self)%Z →
         buffer self' !! Z.to_nat ((index self + j) mod window_size self)
           = buffer self !! Z.to_nat ((index self + j) mod window_size self)).
Proof.
  intros Hwf. rewrite filter_signal_streams.
  destruct (filter_samples_ring xs self Hwf)
    as (ys & self' & Hys & Hwf' & HN & Hi & Hnew & Hold).
  exists ys, self'. split; [done|]. split; [done|]. split; [|done].
  destruct Hwf as (_ & Hl & _), Hwf' as (_ & Hl' & _).
  apply Nat2Z.inj. by rewrite Hl, Hl'.
Qed.

Lemma ring_contents_witness :
  ∃ ys self',
    filter_signal [1; 2]%R (Self 3 [5; 7; 9] 1 21)%R = (Ok ys, self')
    ∧ index self' = 0%Z
    ∧ buffer self' !! 1 = Some 1%R
    ∧ buffer self' !! 2 = Some 2%R
    ∧ buffer self' !! 0 = Some 5%R.
Proof.
  destruct (ring_contents [1; 2]%R (Self 3 [5; 7; 9] 1 21)%R)
    as (ys & self' & Hys & _ & _ & Hi & Hnew & Hold).
  { repeat split; simpl; lia. }
  exists ys, self'. split; [exact Hys|]. split; [exact Hi|].
  split; [apply (Hnew 0 1%R); [reflexivity | simpl; lia]|].
  split; [apply (Hnew 1 2%R); [reflexivity | simpl; lia]|].
  apply (Hold 2%Z). simpl. lia.
Defined.

(** X8: what the running sum differs from the sum of the buffer by
    is kept by [filter_signal], from any averager with window size
    [N >= 1]: the filter never re-synchronises the two. *)
Theorem running_sum_offset (xs : list R) (self : t R) :
  well_formed self →
  ∃ ys self',
    filter_signal xs self = (Ok ys, self')
    ∧ (sum self' - py_sum (buffer self') = sum self - py_sum (buffer self))%R.
Proof.
  intros Hwf. rewrite filter_signal_streams.
  destruct (filter_samples_offset xs self Hwf) as (ys & self' & Hys & _ & Hoff).
  by exists ys, self'.
Qed.

Lemma running_sum_offset_witness :
  ∃ ys self',
    filter_signal [1; 2]%R (Self 2 [5; 7] 1 13)%R = (Ok ys, self')
    ∧ (sum self' - py_sum (buffer self') = 13 - py_sum [5; 7])%R.
Proof.
  apply (running_sum_offset [1; 2]%R (Self 2 [5; 7] 1 13)%R).
  repeat split; simpl; lia.
Defined.

(** X9: in exact real arithmetic, from any averager with window size
    [N >= 1] and on an array of floats: once [N] samples have been fed,
    the output is the sum of the last [N] samples, plus what the running
    sum was off by at the start, divided by [N]; what the buffer held
    enters through that offset alone.  On binary64 the rounding made
    while earlier samples were in the window stays in the running sum
    and in the outputs ([Binary64.rounding_stays_in_the_outputs]). *)
Theorem steady_state_output (xs : list R) (self : t R) (k : nat) :
  well_formed self →
  k < length xs →
  (window_size self ≤ Z.of_nat k + 1)%Z →
  ∃ ys self',
    filter_signal xs self = (Ok ys, self')
    ∧ ys !! k
      = Some ((py_sum (recent (Z.to_nat (window_size self)) (take (S k) xs))
               + (sum self - py_sum (buffer self)))
              / IZR (window_size self))%R.
Proof.
  intros Hwf Hk HkN. rewrite filter_signal_streams.
  pose proof Hwf as (HN & Hlen & Hi).
  set (c := Self (window_size self) (buffer self) (index self) (py_sum (buffer self))).
  assert (well_formed c) as Hwfc by done.
  pose proof (consistent_holds_window c Hwfc eq_refl) as Hhold. simpl in Hhold.
  destruct (filter_samples_window (Z.to_nat (window_size self)) xs _ c
              ltac:(lia) Hhold)
    as (ys & self' & Hys & _ & Hl & Hout).
  pose proof (filter_samples_shift (sum self - py_sum (buffer self)) xs ys c self'
                Hwfc Hys) as Hshift.
  simpl in Hshift.
  replace (py_sum (buffer self) + (sum self - py_sum (buffer self)))%R
    with (sum self) in Hshift by lra.
  assert (Self (window_size self) (buffer self) (index self) (sum self) = self)
    as Hself by by destruct self.
  rewrite Hself in Hshift. rewrite Hshift.
  eexists _, _. split; [reflexivity|].
  rewrite list_lookup_fmap, Hout by done. simpl.
  rewrite window_forgets by (rewrite length_take_le; lia).
  rewrite Z2Nat.id by lia. f_equal. field. apply not_0_IZR. lia.
Qed.

Lemma steady_state_output_witness :
  ∃ ys self',
    filter_signal [1; 2; 3]%R (Self 2 [5; 7] 1 13)%R = (Ok ys, self')
    ∧ ys !! 2
      = Some ((py_sum (recent (Z.to_nat 2) (take 3 [1; 2; 3]))
               + (13 - py_sum [5; 7])) / IZR 2)%R.
Proof.
  apply (steady_state_output [1; 2; 3]%R (Self 2 [5; 7] 1 13)%R 2).
  - repeat split; simpl; lia.
  - simpl; lia.
  - simpl; lia.
Defined.

(** ** The transfer function in closed form *)

Section Kernel.
Local Open Scope R_scope.

(** The geometric sum behind the transfer function:
    [(1 - exp(-jw)) * sum (exp(-jwn)) = 1 - exp(-jwN)], in real and
    imaginary parts. *)
Lemma geometric_sum (w : R) (N : nat) :
  let C := sum_below N (λ n, cos (w * INR n)) in
  let S := sum_below N (λ n, - sin (w * INR n)) in
  (1 - cos w) * C - sin w * S = 1 - cos (w * INR N)
  ∧ (1 - cos w) * S + sin w * C = sin (w * INR N).
Proof.
  induction N as [|N [IHc IHs]].
  - simpl. replace (w * 0) with 0 by lra. rewrite cos_0, sin_0. lra.
  - cbn zeta in *. cbn [sum_below].
    set (C := sum_below N (λ n, cos (w * INR n))) in *.
    set (S := sum_below N (λ n, - sin (w * INR n))) in *.
    rewrite S_INR.
    replace (w * (INR N + 1)) with (w * INR N + w) by lra.
    rewrite cos_plus, sin_plus. split; nra.
Qed.

Lemma transfer_as_sums (N : nat) (w : R) :
  transfer N w
    = (sum_below N (λ n, cos (w * INR n)) / INR N,
       sum_below N (λ n, - sin (w * INR n)) / INR N).
Proof.
  unfold transfer. f_equal.
  - rewrite sum_below_scale. lra.
  - rewrite (sum_below_ext _ _ (λ n, 1 / INR N * - sin (w * INR n)))
      by (intros; lra).
    rewrite sum_below_scale. lra.
Qed.

Lemma transfer_identity (N : nat) (w : R) :
  Cmul (1 - cos w, sin w) (transfer N w)
    = ((1 - cos (w * INR N)) / INR N, sin (w * INR N) / INR N).
Proof.
  destruct (geometric_sum w N) as [Hc Hs]. cbn zeta in *.
  rewrite transfer_as_sums. unfold Cmul. cbn [fst snd].
  f_equal; [rewrite <- Hc | rewrite <- Hs]; lra.
Qed.

Lemma one_minus_cos (x : R) : 1 - cos x = 2 * sin (x / 2) * sin (x / 2).
Proof.
  replace x with (2 * (x / 2)) at 1 by lra. rewrite cos_2a_sin. lra.
Qed.

Lemma sin_half (x : R) : sin x = 2 * sin (x / 2) * cos (x / 2).
Proof. replace x with (2 * (x / 2)) at 1 by lra. apply sin_2a. Qed.

(** The two sums in closed form (the Dirichlet kernel), away from
    [w = 0]. *)
Lemma dirichlet (N : nat) (w : R) :
  sin (w / 2) ≠ 0 →
  let phi := (INR N - 1) * (w / 2) in
  sum_below N (λ n, cos (w * INR n)) * sin (w / 2)
    = sin (INR N * (w / 2)) * cos phi
  ∧ sum_below N (λ n, - sin (w * INR n)) * sin (w / 2)
    = - (sin (INR N * (w / 2)) * sin phi).
Proof.
  intros Hsu phi. destruct (geometric_sum w N) as [Hre Him]. cbn zeta in *.
  set (C := sum_below N (λ n, cos (w * INR n))) in *.
  set (S := sum_below N (λ n, - sin (w * INR n))) in *.
  rewrite (one_minus_cos w), (sin_half w) in Hre, Him.
  rewrite (one_minus_cos (w * INR N)) in Hre. rewrite (sin_half (w * INR N)) in Him.
  replace (w * INR N / 2) with (INR N * (w / 2)) in Hre, Him by lra.
  assert (cos phi = cos (INR N * (w / 2)) * cos (w / 2)
                    + sin (INR N * (w / 2)) * sin (w / 2)) as ->.
  { unfold phi. replace ((INR N - 1) * (w / 2)) with (INR N * (w / 2) - w / 2) by lra.
    apply cos_minus. }
  assert (sin phi = sin (INR N * (w / 2)) * cos (w / 2)
                    - cos (INR N * (w / 2)) * sin (w / 2)) as ->.
  { unfold phi. replace ((INR N - 1) * (w / 2)) with (INR N * (w / 2) - w / 2) by lra.
    apply sin_minus. }
  pose proof (sin2_cos2 (w / 2)) as Hu. unfold Rsqr in Hu.
  set (su := sin (w / 2)) in *. set (cu := cos (w / 2)) in *.
  set (sN := sin (INR N * (w / 2))) in *. set (cN := cos (INR N * (w / 2))) in *.
  split; apply (Rmult_eq_reg_l (4 * su)); try lra.
  - transitivity (4 * (su * su + cu * cu) * (su * su) * C); [rewrite Hu; ring|].
    transitivity ((2 * su * su) * (2 * su * su * C - 2 * su * cu * S)
                  + (2 * su * cu) * (2 * su * su * S + 2 * su * cu * C)); [ring|].
    rewrite Hre, Him. ring.
  - transitivity (4 * (su * su + cu * cu) * (su * su) * S); [rewrite Hu; ring|].
    transitivity ((2 * su * su) * (2 * su * su * S + 2 * su * cu * C)
                  - (2 * su * cu) * (2 * su * su * C - 2 * su * cu * S)); [ring|].
    rewrite Hre, Him. ring.
Qed.

(** The transfer function in polar form, away from [w = 0]. *)
Lemma transfer_polar (N : nat) (w : R) :
  (1 ≤ N)%nat →
  sin (w / 2) ≠ 0 →
  let r := sin (INR N * (w / 2)) / (INR N * sin (w / 2)) in
  let phi := (INR N - 1) * (w / 2) in
  transfer N w = (r * cos phi, - (r * sin phi)).
Proof.
  intros HN Hsu r phi.
  assert (INR N ≠ 0) as HN0 by (apply not_0_INR; lia).
  destruct (dirichlet N w Hsu) as [Hc Hs]. cbn zeta in *. fold phi in Hc, Hs.
  rewrite transfer_as_sums. unfold r. f_equal.
  - apply (Rmult_eq_reg_r (sin (w / 2))); [|done].
    transitivity (sum_below N (λ n, cos (w * INR n)) * sin (w / 2) / INR N);
      [by field|]. rewrite Hc. by field.
  - apply (Rmult_eq_reg_r (sin (w / 2))); [|done].
    transitivity (sum_below N (λ n, - sin (w * INR n)) * sin (w / 2) / INR N);
      [by field|]. rewrite Hs. by field.
Qed.

End Kernel.

Section Grid.
Local Open Scope R_scope.

Lemma np_abs_polar (r phi : R) : np_abs (r * cos phi, - (r * sin phi)) = Rabs r.
Proof.
  unfold np_abs. cbn [fst snd]. rewrite <- sqrt_Rsqr_abs. f_equal.
  pose proof (sin2_cos2 phi) as Hu. unfold Rsqr in *. nra.
Qed.

Lemma tan_PI_minus (x : R) : cos x ≠ 0 → tan (PI - x) = - tan x.
Proof.
  intros Hc. unfold tan. rewrite sin_PI_x.
  replace (PI - x) with (- x + PI) by lra. rewrite neg_cos, cos_neg. by field.
Qed.

(** The angle of a point given in polar form, clockwise. *)
Lemma np_angle_polar (r phi : R) :
  0 < r → 0 <= phi < PI →
  np_angle (r * cos phi, - (r * sin phi)) = - phi.
Proof.
  intros Hr [Hphi0 HphiPI]. unfold np_angle, arctan2. cbn [fst snd].
  pose proof PI_RGT_0 as HPI.
  destruct (Rtotal_order phi (PI / 2)) as [Hlt|[Heq|Hgt]].
  - assert (0 < cos phi) as Hc by (apply cos_gt_0; lra).
    destruct (Rlt_dec 0 (r * cos phi)) as [_|Hn]; [|nra].
    replace (- (r * sin phi) / (r * cos phi)) with (- tan phi)
      by (unfold tan; field; lra).
    rewrite atan_opp, atan_tan by lra. done.
  - subst phi. rewrite cos_PI2, sin_PI2.
    destruct (Rlt_dec 0 (r * 0)) as [Hn|_]; [lra|].
    destruct (Rlt_dec (r * 0) 0) as [Hn|_]; [lra|].
    destruct (Rlt_dec 0 (- (r * 1))) as [Hn|_]; [lra|].
    destruct (Rlt_dec (- (r * 1)) 0) as [_|Hn]; [done|lra].
  - assert (cos phi < 0) as Hc by (apply cos_lt_0; lra).
    assert (0 < sin phi) as Hs by (apply sin_gt_0; lra).
    destruct (Rlt_dec 0 (r * cos phi)) as [Hn|_]; [nra|].
    destruct (Rlt_dec (r * cos phi) 0) as [_|Hn]; [|nra].
    destruct (Rle_dec 0 (- (r * sin phi))) as [Hn|_]; [nra|].
    replace (- (r * sin phi) / (r * cos phi)) with (tan (PI - phi))
      by (rewrite tan_PI_minus by lra; unfold tan; field; lra).
    rewrite atan_tan by lra. lra.
Qed.

Lemma sin_multiple_bound (n : nat) (x : R) :
  Rabs (sin (INR n * x)) <= INR n * Rabs (sin x).
Proof.
  induction n as [|n IH].
  - simpl. rewrite Rmult_0_l, sin_0, Rabs_R0. lra.
  - rewrite S_INR. replace ((INR n + 1) * x) with (INR n * x + x) by lra.
    rewrite sin_plus.
    pose proof (Rabs_triang (sin (INR n * x) * cos x) (cos (INR n * x) * sin x)) as Ht.
    rewrite !Rabs_mult in Ht.
    assert (Rabs (cos x) <= 1) as Hc1
      by (apply Rabs_le; pose proof (COS_bound x); lra).
    assert (Rabs (cos (INR n * x)) <= 1) as Hc2
      by (apply Rabs_le; pose proof (COS_bound (INR n * x)); lra).
    pose proof (Rabs_pos (sin (INR n * x))). pose proof (Rabs_pos (sin x)).
    nra.
Qed.

Lemma sin_multiple_of_PI (j : nat) : sin (INR j * PI) = 0.
Proof.
  apply sin_eq_0_1. exists (Z.of_nat j). by rewrite <- INR_IZR_INZ.
Qed.

(** The grid of [get_frequency_response]: its points after the first
    lie strictly between [0] and [pi]. *)
Lemma grid_point_range (P : Z) (k : nat) :
  (1 ≤ k)%nat → (Z.of_nat k < P)%Z →
  0 < PI * INR k / IZR P / 2 < PI / 2.
Proof.
  intros Hk HkP. pose proof PI_RGT_0 as HPI.
  assert (0 < INR k) as Hk0 by (apply lt_0_INR; lia).
  assert (INR k < IZR P) as Hk1 by (rewrite INR_IZR_INZ; by apply IZR_lt).
  assert (0 < / IZR P) as Hinv by (apply Rinv_0_lt_compat; lra).
  assert (INR k * / IZR P < 1).
  { replace 1 with (IZR P * / IZR P) by (field; lra).
    by apply Rmult_lt_compat_r. }
  assert (0 < INR k * / IZR P) by by apply Rmult_lt_0_compat.
  unfold Rdiv. nra.
Qed.

(** The transfer function at a grid point after the first, in polar
    form. *)
Lemma transfer_at_grid (N P : Z) (k : nat) :
  (1 ≤ N)%Z → (1 ≤ k)%nat → (Z.of_nat k < P)%Z →
  let w := PI * INR k / IZR P in
  let r := sin (IZR N * (w / 2)) / (IZR N * sin (w / 2)) in
  let phi := (IZR N - 1) * (w / 2) in
  0 < sin (w / 2)
  ∧ transfer (Z.to_nat N) (INR k * (PI / INR (Z.to_nat P)))
    = (r * cos phi, - (r * sin phi)).
Proof.
  intros HN Hk HkP w r phi.
  assert (INR k * (PI / INR (Z.to_nat P)) = w) as ->.
  { unfold w. rewrite INR_to_nat by lia. field. apply not_0_IZR. lia. }
  assert (0 < sin (w / 2)) as Hsu.
  { pose proof (grid_point_range P k Hk HkP) as Hr. fold w in Hr.
    apply sin_gt_0; pose proof PI_RGT_0; lra. }
  split; [done|].
  pose proof (transfer_polar (Z.to_nat N) w ltac:(lia) ltac:(lra)) as Hpol.
  cbn zeta in Hpol. by rewrite INR_to_nat in Hpol by lia.
Qed.

Lemma magnitude_at_grid (N P : Z) (k : nat) :
  (1 ≤ N)%Z → (1 ≤ k)%nat → (Z.of_nat k < P)%Z →
  let w := PI * INR k / IZR P in
  np_abs (transfer (Z.to_nat N) (INR k * (PI / INR (Z.to_nat P))))
    = Rabs (sin (IZR N * (w / 2))) / (IZR N * sin (w / 2)).
Proof.
  intros HN Hk HkP w.
  destruct (transfer_at_grid N P k HN Hk HkP) as [Hsu ->]. fold w in Hsu |- *.
  rewrite np_abs_polar.
  assert (0 < IZR N) as HNpos by (apply IZR_lt; lia).
  assert (0 < IZR N * sin (w / 2)) as Hden by by apply Rmult_lt_0_compat.
  unfold Rdiv. rewrite Rabs_mult, Rabs_inv. do 2 f_equal.
  apply Rabs_right. lra.
Qed.

End Grid.

Section FrequencyTheorems.
Local Open Scope R_scope.

(** X11: the transfer function the source documents,
    [H(z) = (1/N) (1 - z^(-N)) / (1 - z^(-1))], holds for the sum
    [get_frequency_response] evaluates, at every point [z = exp(jw)] of
    the unit circle: [(1 - z^(-1)) H(z) = (1/N) (1 - z^(-N))], with
    [H(z)] the sum of [h[n] z^(-n)] over the impulse response [h]. *)
Theorem transfer_function_formula (N : Z) (w : R) :
  (1 ≤ N)%Z →
  ∃ ma_filter h,
    __init__ N = Ok ma_filter
    ∧ get_impulse_response ma_filter = (Ok h, ma_filter)
    ∧ Cmul (1 - cos w, sin w) (response_from 0 h w)
      = ((1 - cos (IZR N * w)) / IZR N, sin (IZR N * w) / IZR N).
Proof.
  intros HN. eexists _, _. split; [apply init_R; lia|].
  split; [apply (get_impulse_response_R (Self N _ 0 0)); simpl; lia|].
  simpl. rewrite response_is_transfer, transfer_identity by lia.
  by rewrite INR_to_nat, (Rmult_comm w) by lia.
Qed.

Lemma transfer_function_formula_witness :
  ∃ ma_filter h,
    __init__ 4 = Ok ma_filter
    ∧ get_impulse_response ma_filter = (Ok h, ma_filter)
    ∧ Cmul (1 - cos 1, sin 1) (response_from 0 h 1)
      = ((1 - cos (IZR 4 * 1)) / IZR 4, sin (IZR 4 * 1) / IZR 4).
Proof. apply (transfer_function_formula 4 1). lia. Defined.

(** X12: at every frequency point after the first, [w = pi k / P],
    the magnitude [get_frequency_response] returns is
    [|sin(N w / 2)| / (N sin(w / 2))]. *)
Theorem magnitude_closed_form (self : t R) (P : Z) (k : nat) :
  (1 ≤ window_size self)%Z → (1 ≤ k)%nat → (Z.of_nat k < P)%Z →
  let w := PI * INR k / IZR P in
  ∃ frequencies magnitude phase,
    get_frequency_response P self = (Ok (frequencies, magnitude, phase), self)
    ∧ 0 < sin (w / 2)
    ∧ magnitude !! k
      = Some (Rabs (sin (IZR (window_size self) * (w / 2)))
              / (IZR (window_size self) * sin (w / 2))).
Proof.
  intros HN Hk HkP w.
  eexists _, _, _. split; [apply get_frequency_response_R; lia|].
  destruct (transfer_at_grid (window_size self) P k HN Hk HkP) as [Hsu _].
  split; [done|].
  rewrite !list_lookup_fmap, np_linspace_open_lookup by lia. simpl.
  by rewrite magnitude_at_grid.
Qed.

Lemma magnitude_closed_form_witness :
  let w := PI * INR 3 / IZR 8 in
  ∃ frequencies magnitude phase,
    get_frequency_response 8 (Self 4 [0; 0; 0; 0] 0 0)
      = (Ok (frequencies, magnitude, phase), Self 4 [0; 0; 0; 0] 0 0)
    ∧ 0 < sin (w / 2)
    ∧ magnitude !! 3%nat
      = Some (Rabs (sin (IZR 4 * (w / 2))) / (IZR 4 * sin (w / 2))).
Proof.
  apply (magnitude_closed_form (Self 4 [0; 0; 0; 0] 0 0) 8 3); simpl; lia.
Defined.

(** X13: in exact arithmetic the filter never amplifies: every
    magnitude of the response [get_frequency_response] computes lies
    between 0 and 1.  On binary64 the bound is met up to rounding only:
    a magnitude that is 1 in exact arithmetic, as at frequency 0, can
    come out one unit in the last place above it. *)
Theorem gain_at_most_one (self : t R) (P : Z) :
  (1 ≤ window_size self)%Z → (0 ≤ P)%Z →
  ∃ frequencies magnitude phase,
    get_frequency_response P self = (Ok (frequencies, magnitude, phase), self)
    ∧ Forall (λ m, 0 <= m <= 1) magnitude.
Proof.
  intros HN HP.
  eexists _, _, _. split; [apply get_frequency_response_R; lia|].
  apply Forall_lookup_2. intros k m Hm.
  assert (k < Z.to_nat P)%nat as Hk.
  { apply lookup_lt_Some in Hm. by rewrite !length_fmap, np_linspace_open_length in Hm. }
  rewrite !list_lookup_fmap, np_linspace_open_lookup in Hm by done. simpl in Hm.
  injection Hm as <-.
  destruct k as [|k].
  - simpl INR. rewrite Rmult_0_l, transfer_at_0, np_abs_1 by lia. lra.
  - destruct (transfer_at_grid (window_size self) P (S k) HN ltac:(lia) ltac:(lia))
      as [Hsu _].
    rewrite magnitude_at_grid by lia. cbn zeta in *.
    set (w := PI * INR (S k) / IZR P) in *.
    assert (0 < IZR (window_size self)) as HNpos by (apply IZR_lt; lia).
    assert (0 < IZR (window_size self) * sin (w / 2)) as Hden
      by by apply Rmult_lt_0_compat.
    pose proof (sin_multiple_bound (Z.to_nat (window_size self)) (w / 2)) as Hb.
    rewrite INR_to_nat in Hb by lia. rewrite (Rabs_right (sin (w / 2))) in Hb by lra.
    split.
    + apply Rmult_le_pos; [apply Rabs_pos|]. left. by apply Rinv_0_lt_compat.
    + apply (Rmult_le_reg_r (IZR (window_size self) * sin (w / 2))); [done|].
      unfold Rdiv. rewrite Rmult_assoc, Rinv_l by lra. lra.
Qed.

Lemma gain_at_most_one_witness :
  ∃ frequencies magnitude phase,
    get_frequency_response 8 (Self 4 [0; 0; 0; 0] 0 0)
      = (Ok (frequencies, magnitude, phase), Self 4 [0; 0; 0; 0] 0 0)
    ∧ Forall (λ m, 0 <= m <= 1) magnitude.
Proof.
  apply (gain_at_most_one (Self 4 [0; 0; 0; 0] 0 0) 8); simpl; lia.
Defined.

(** X14: the response vanishes at the multiples of [1/N] cycles per
    sample: where a frequency point [k / (2 P)] equals [j / N], the
    magnitude is 0. *)
Theorem response_nulls (self : t R) (P : Z) (k j : nat) :
  (1 ≤ window_size self)%Z → (1 ≤ k)%nat → (Z.of_nat k < P)%Z →
  (window_size self * Z.of_nat k = 2 * P * Z.of_nat j)%Z →
  ∃ frequencies magnitude phase,
    get_frequency_response P self = (Ok (frequencies, magnitude, phase), self)
    ∧ frequencies !! k = Some (INR j / IZR (window_size self))
    ∧ magnitude !! k = Some 0.
Proof.
  intros HN Hk HkP Hj.
  eexists _, _, _. split; [apply get_frequency_response_R; lia|].
  assert (IZR (window_size self) * INR k = 2 * IZR P * INR j) as HjR.
  { rewrite !INR_IZR_INZ, <- !mult_IZR. by f_equal. }
  assert (IZR (window_size self) ≠ 0) as HN0 by (apply not_0_IZR; lia).
  assert (IZR P ≠ 0) as HP0 by (apply not_0_IZR; lia).
  split.
  - rewrite list_lookup_fmap, np_linspace_open_lookup by lia. simpl.
    rewrite frequency_value by lia. f_equal.
    apply (Rmult_eq_reg_r (2 * IZR P * IZR (window_size self))); [|nra].
    transitivity (IZR (window_size self) * INR k); [by field|].
    rewrite HjR. by field.
  - rewrite !list_lookup_fmap, np_linspace_open_lookup by lia. simpl.
    rewrite magnitude_at_grid by lia. cbn zeta.
    replace (IZR (window_size self) * (PI * INR k / IZR P / 2))
      with (INR j * PI).
    + rewrite sin_multiple_of_PI, Rabs_R0. f_equal. unfold Rdiv. lra.
    + transitivity (IZR (window_size self) * INR k * PI / (2 * IZR P)); [|by field].
      rewrite HjR. by field.
Qed.

Lemma response_nulls_witness :
  ∃ frequencies magnitude phase,
    get_frequency_response 8 (Self 4 [0; 0; 0; 0] 0 0)
      = (Ok (frequencies, magnitude, phase), Self 4 [0; 0; 0; 0] 0 0)
    ∧ frequencies !! 4%nat = Some (INR 1 / IZR 4)
    ∧ magnitude !! 4%nat = Some 0.
Proof.
  apply (response_nulls (Self 4 [0; 0; 0; 0] 0 0) 8 4 1); simpl; lia.
Defined.

(** X15: the phase is linear in the frequency up to the first null:
    while [N k < 2 P] the phase at the point [w = pi k / P] is
    [- (N - 1) / 2 * w], a delay of [(N - 1) / 2] samples. *)
Theorem linear_phase (self : t R) (P : Z) (k : nat) :
  (1 ≤ window_size self)%Z → (1 ≤ k)%nat → (Z.of_nat k < P)%Z →
  (window_size self * Z.of_nat k < 2 * P)%Z →
  ∃ frequencies magnitude phase,
    get_frequency_response P self = (Ok (frequencies, magnitude, phase), self)
    ∧ phase !! k
      = Some (- ((IZR (window_size self) - 1) / 2 * (PI * INR k / IZR P))).
Proof.
  intros HN Hk HkP Hlobe.
  eexists _, _, _. split; [apply get_frequency_response_R; lia|].
  rewrite !list_lookup_fmap, np_linspace_open_lookup by lia. simpl. f_equal.
  destruct (transfer_at_grid (window_size self) P k HN Hk HkP) as [Hsu ->].
  set (w := PI * INR k / IZR P) in *.
  pose proof (grid_point_range P k Hk HkP) as Hw. fold w in Hw.
  pose proof PI_RGT_0 as HPI.
  assert (1 <= IZR (window_size self)) as HN1 by (apply IZR_le; lia).
  assert (IZR (window_size self) * (w / 2) < PI) as Hlobe'.
  { assert (IZR (window_size self) * INR k < 2 * IZR P) as HR.
    { rewrite INR_IZR_INZ, <- !mult_IZR. by apply IZR_lt. }
    assert (0 < IZR P) as HPpos by (apply IZR_lt; lia).
    unfold w.
    replace (IZR (window_size self) * (PI * INR k / IZR P / 2))
      with (PI * (IZR (window_size self) * INR k * / (2 * IZR P))) by (field; lra).
    assert (IZR (window_size self) * INR k * / (2 * IZR P) < 1).
    { replace 1 with (2 * IZR P * / (2 * IZR P)) by (field; lra).
      apply Rmult_lt_compat_r; [apply Rinv_0_lt_compat; lra | done]. }
    nra. }
  rewrite np_angle_polar.
  - lra.
  - apply Rdiv_lt_0_compat.
    + apply sin_gt_0; nra.
    + apply Rmult_lt_0_compat; lra.
  - split; nra.
Qed.

Lemma linear_phase_witness :
  ∃ frequencies magnitude phase,
    get_frequency_response 8 (Self 4 [0; 0; 0; 0] 0 0)
      = (Ok (frequencies, magnitude, phase), Self 4 [0; 0; 0; 0] 0 0)
    ∧ phase !! 3%nat = Some (- ((IZR 4 - 1) / 2 * (PI * INR 3 / IZR 8))).
Proof.
  apply (linear_phase (Self 4 [0; 0; 0; 0] 0 0) 8 3); simpl; lia.
Defined.

(** X16: the [N - 1] points [demonstrate_moving_average] plots as the
    zeros of the filter, [exp(j 2 pi k / N)] for [k = 1 .. N - 1], lie on
    the unit circle, and the response of the filter's impulse response
    is zero at each of them. *)
Theorem pole_zero_zeros_are_zeros (N : Z) :
  (1 ≤ N)%Z →
  ∃ ma_filter h,
    __init__ N = Ok ma_filter
    ∧ get_impulse_response ma_filter = (Ok h, ma_filter)
    ∧ length (pole_zero_zeros (Z.to_nat N)) = (Z.to_nat N - 1)%nat
    ∧ ∀ k, (1 ≤ k)%nat → (Z.of_nat k < N)%Z →
        let theta := 2 * PI * INR k / IZR N in
        pole_zero_zeros (Z.to_nat N) !! (k - 1)%nat = Some (np_exp_j theta)
        ∧ np_abs (np_exp_j theta) = 1
        ∧ response_from 0 h theta = (0, 0).
Proof.
  intros HN.
  eexists _, _. split; [apply init_R; lia|].
  split; [apply (get_impulse_response_R (Self N _ 0 0)); simpl; lia|].
  split; [unfold pole_zero_zeros; by rewrite length_fmap, length_seq|].
  intros k Hk HkN theta. simpl.
  assert (IZR N ≠ 0) as HN0 by (apply not_0_IZR; lia).
  pose proof PI_RGT_0 as HPI.
  split; [|split].
  - unfold pole_zero_zeros. rewrite list_lookup_fmap, lookup_seq_lt by lia.
    replace (1 + (k - 1))%nat with k by lia. simpl. by rewrite INR_to_nat by lia.
  - unfold np_abs, np_exp_j. cbn [fst snd].
    pose proof (sin2_cos2 theta) as Hu. unfold Rsqr in Hu.
    replace (cos theta * cos theta + sin theta * sin theta) with 1 by lra.
    apply sqrt_1.
  - rewrite response_is_transfer by lia.
    pose proof (grid_point_range N k Hk HkN) as Hr.
    assert (theta / 2 = 2 * (PI * INR k / IZR N / 2)) as Hhalf
      by (unfold theta; by field).
    assert (sin (theta / 2) ≠ 0) as Hsu
      by (apply Rgt_not_eq, sin_gt_0; lra).
    rewrite (transfer_polar (Z.to_nat N) theta) by (done || lia).
    rewrite INR_to_nat by lia.
    replace (IZR N * (theta / 2)) with (INR k * PI) by (unfold theta; by field).
    rewrite sin_multiple_of_PI. unfold Rdiv. f_equal; lra.
Qed.

Lemma pole_zero_zeros_are_zeros_witness :
  ∃ ma_filter h,
    __init__ 15 = Ok ma_filter
    ∧ get_impulse_response ma_filter = (Ok h, ma_filter)
    ∧ length (pole_zero_zeros (Z.to_nat 15)) = (Z.to_nat 15 - 1)%nat
    ∧ ∀ k, (1 ≤ k)%nat → (Z.of_nat k < 15)%Z →
        let theta := 2 * PI * INR k / IZR 15 in
        pole_zero_zeros (Z.to_nat 15) !! (k - 1)%nat = Some (np_exp_j theta)
        ∧ np_abs (np_exp_j theta) = 1
        ∧ response_from 0 h theta = (0, 0).
Proof. apply (pole_zero_zeros_are_zeros 15). lia. Defined.

End FrequencyTheorems.

(** ** The test signal *)

Section TestSignal.
Local Open Scope R_scope.

Lemma py_int_IZR (n : Z) : py_int (IZR n) = n.
Proof.
  assert (∀ m, Int_part (IZR m) = m) as Hint.
  { intros m. symmetry. apply Int_part_spec. lra. }
  unfold py_int. destruct (Rle_dec 0 (IZR n)).
  - apply Hint.
  - rewrite <- opp_IZR, Hint. lia.
Qed.

Lemma clean_signal_lookup (t : list R) (k : nat) (x : R) :
  t !! k = Some x →
  np_add
    (np_add (np_scale 2 (np_sin (np_scale (2 * PI * 10) t)))
            (np_scale 1.5 (np_sin (np_scale (2 * PI * 25) t))))
    (np_scale 0.8 (np_sin (np_scale (2 * PI * 50) t))) !! k
  = Some (clean_at x).
Proof.
  intros Hx. unfold np_add, np_scale, np_sin.
  rewrite !lookup_zip_with, !list_lookup_fmap, Hx. done.
Qed.

Lemma clean_at_bound (x : R) : Rabs (clean_at x) <= 4.3.
Proof.
  unfold clean_at.
  pose proof (SIN_bound (2 * PI * 10 * x)).
  pose proof (SIN_bound (2 * PI * 25 * x)).
  pose proof (SIN_bound (2 * PI * 50 * x)).
  apply Rabs_le. lra.
Qed.

Lemma create_test_signal_value (randn : nat → list R) (duration : R) (fs : Z) :
  (0 ≤ py_int (IZR fs * duration))%Z →
  let n := Z.to_nat (py_int (IZR fs * duration)) in
  let t := np_linspace_open duration n in
  create_test_signal randn duration fs
    = Ok (t, clean_at <$> t, np_add (clean_at <$> t) (np_scale 1.5 (randn n))).
Proof.
  intros Hn n t. unfold create_test_signal. cbv zeta.
  destruct (Z.ltb_spec (py_int (IZR fs * duration)) 0); [lia|].
  rewrite np_linspace_open_length. fold n. fold t.
  assert (np_add
    (np_add (np_scale 2 (np_sin (np_scale (2 * PI * 10) t)))
            (np_scale 1.5 (np_sin (np_scale (2 * PI * 25) t))))
    (np_scale 0.8 (np_sin (np_scale (2 * PI * 50) t))) = clean_at <$> t) as ->; [|done].
  apply list_eq. intros k. rewrite list_lookup_fmap.
  destruct (t !! k) as [x|] eqn:Hx.
  - by apply clean_signal_lookup.
  - unfold np_add, np_scale, np_sin.
    by rewrite !lookup_zip_with, !list_lookup_fmap, Hx.
Qed.

End TestSignal.

Section TestSignalTheorems.
Local Open Scope R_scope.

Lemma np_add_scale_mix (c : R) (a b : list R) :
  np_add a (np_scale c b) = mix 1 c a b.
Proof.
  unfold np_add, np_scale, mix. rewrite zip_with_fmap_r.
  apply zip_with_ext; [|done..]. intros x y. lra.
Qed.

Lemma sampling_instant (duration : R) (fs n : Z) (k : nat) :
  (1 ≤ n)%Z → IZR fs * duration = IZR n →
  INR k * (duration / INR (Z.to_nat n)) = INR k / IZR fs.
Proof.
  intros Hn Hprod. rewrite INR_to_nat by lia.
  assert (IZR n ≠ 0) as Hn0 by (apply not_0_IZR; lia).
  assert (IZR fs ≠ 0) as Hfs0 by (intros H0; rewrite H0, Rmult_0_l in Hprod; lra).
  assert (duration ≠ 0) as Hd0 by (intros H0; rewrite H0, Rmult_0_r in Hprod; lra).
  rewrite <- Hprod. by field.
Qed.

Lemma clean_at_period (x : R) : clean_at (x + 1 / 5) = clean_at x.
Proof.
  unfold clean_at.
  replace (2 * PI * 10 * (x + 1 / 5)) with (2 * PI * 10 * x + 2 * INR 2 * PI)
    by (simpl; lra).
  replace (2 * PI * 25 * (x + 1 / 5)) with (2 * PI * 25 * x + 2 * INR 5 * PI)
    by (simpl; lra).
  replace (2 * PI * 50 * (x + 1 / 5)) with (2 * PI * 50 * x + 2 * INR 10 * PI)
    by (simpl; lra).
  by rewrite !sin_period.
Qed.

(** X17: when [fs * duration] is a whole number [n >= 0], so that
    [int(fs * duration)] is [n] on binary64 as in exact arithmetic,
    [create_test_signal] returns three arrays of length [n]: the times
    [k * duration / n], the clean signal evaluated at these times,
    which stays within 4.3 in absolute value, and the noisy signal, the
    clean one plus 1.5 times the value drawn for the position. *)
Theorem create_test_signal_shape
  (randn : nat → list R) (duration : R) (fs n : Z) :
  (∀ m, length (randn m) = m) →
  (0 ≤ n)%Z →
  IZR fs * duration = IZR n →
  ∃ t clean_signal noisy_signal,
    create_test_signal randn duration fs = Ok (t, clean_signal, noisy_signal)
    ∧ length t = Z.to_nat n
    ∧ length clean_signal = Z.to_nat n
    ∧ length noisy_signal = Z.to_nat n
    ∧ ∀ k, (k < Z.to_nat n)%nat →
        ∃ x draw,
          t !! k = Some x
          ∧ x = INR k * (duration / IZR n)
          ∧ randn (Z.to_nat n) !! k = Some draw
          ∧ clean_signal !! k = Some (clean_at x)
          ∧ Rabs (clean_at x) <= 4.3
          ∧ noisy_signal !! k = Some (clean_at x + 1.5 * draw).
Proof.
  intros Hrandn Hn Hprod.
  pose proof (create_test_signal_value randn duration fs) as Hval.
  rewrite Hprod, py_int_IZR in Hval. cbn zeta in Hval.
  eexists _, _, _. split; [apply Hval; lia|].
  unfold np_add, np_scale.
  rewrite length_zip_with, !length_fmap, np_linspace_open_length, Hrandn.
  split; [done|]. split; [done|]. split; [lia|].
  intros k Hk.
  destruct (lookup_lt_is_Some_2 (randn (Z.to_nat n)) k) as [draw Hdraw];
    [by rewrite Hrandn|].
  exists (INR k * (duration / IZR n)), draw.
  assert (np_linspace_open duration (Z.to_nat n) !! k
          = Some (INR k * (duration / IZR n))) as Ht
    by (rewrite np_linspace_open_lookup, INR_to_nat by done; done).
  split; [done|]. split; [done|]. split; [done|].
  split; [by rewrite list_lookup_fmap, Ht|].
  split; [apply clean_at_bound|].
  by rewrite lookup_zip_with, !list_lookup_fmap, Ht, Hdraw.
Qed.

Lemma create_test_signal_shape_witness :
  ∃ t clean_signal noisy_signal,
    create_test_signal (λ n, replicate n 0) 2 1000
      = Ok (t, clean_signal, noisy_signal)
    ∧ length t = 2000%nat
    ∧ length clean_signal = 2000%nat
    ∧ length noisy_signal = 2000%nat.
Proof.
  destruct (create_test_signal_shape (λ n, replicate n 0) 2 1000 2000)
    as (t & c & n & Hval & Ht & Hc & Hn & _).
  - intros m. apply length_replicate.
  - lia.
  - lra.
  - exists t, c, n. split; [exact Hval|]. split; [exact Ht|]. split; [exact Hc|exact Hn].
Defined.

(** X19: when [fs * duration] is a whole number [n >= 1], the [n]
    sample times are [k / fs]: the signal is sampled at [fs] samples per
    second. *)
Theorem create_test_signal_sampling
  (randn : nat → list R) (duration : R) (fs n : Z) :
  (1 ≤ n)%Z →
  IZR fs * duration = IZR n →
  ∃ t clean_signal noisy_signal,
    create_test_signal randn duration fs = Ok (t, clean_signal, noisy_signal)
    ∧ length t = Z.to_nat n
    ∧ ∀ k, (k < Z.to_nat n)%nat →
        t !! k = Some (INR k / IZR fs)
        ∧ clean_signal !! k = Some (clean_at (INR k / IZR fs)).
Proof.
  intros Hn Hprod.
  pose proof (create_test_signal_value randn duration fs) as Hval.
  rewrite Hprod, py_int_IZR in Hval. cbn zeta in Hval.
  eexists _, _, _. split; [apply Hval; lia|].
  split; [apply np_linspace_open_length|].
  intros k Hk.
  assert (np_linspace_open duration (Z.to_nat n) !! k = Some (INR k / IZR fs)) as Ht
    by (rewrite np_linspace_open_lookup by done; f_equal; by apply sampling_instant).
  split; [done|]. by rewrite list_lookup_fmap, Ht.
Qed.

Lemma create_test_signal_sampling_witness :
  ∃ t clean_signal noisy_signal,
    create_test_signal (λ n, replicate n 0) 2 1000
      = Ok (t, clean_signal, noisy_signal)
    ∧ length t = Z.to_nat 2000
    ∧ ∀ k, (k < Z.to_nat 2000)%nat →
        t !! k = Some (INR k / IZR 1000)
        ∧ clean_signal !! k = Some (clean_at (INR k / IZR 1000)).
Proof.
  apply (create_test_signal_sampling (λ n, replicate n 0) 2 1000 2000); [lia | lra].
Defined.

(** X20: the clean signal repeats every fifth of a second: when the
    sampling rate is [5 m] samples per second, the clean sample [m]
    places on equals the sample at hand. *)
Theorem clean_signal_period
  (randn : nat → list R) (duration : R) (fs n m : Z) (k : nat) :
  (1 ≤ m)%Z →
  fs = (5 * m)%Z →
  IZR fs * duration = IZR n →
  (Z.of_nat k + m < n)%Z →
  ∃ t clean_signal noisy_signal,
    create_test_signal randn duration fs = Ok (t, clean_signal, noisy_signal)
    ∧ is_Some (clean_signal !! k)
    ∧ clean_signal !! (k + Z.to_nat m)%nat = clean_signal !! k.
Proof.
  intros Hm Hfs Hprod Hk.
  pose proof (create_test_signal_value randn duration fs) as Hval.
  rewrite Hprod, py_int_IZR in Hval. cbn zeta in Hval.
  eexists _, _, _. split; [apply Hval; lia|].
  assert (∀ i, (i < Z.to_nat n)%nat →
            np_linspace_open duration (Z.to_nat n) !! i = Some (INR i / IZR fs)) as Ht.
  { intros i Hi. rewrite np_linspace_open_lookup by done. f_equal.
    apply sampling_instant; [lia|done]. }
  rewrite !list_lookup_fmap, !Ht by lia. simpl. split; [done|]. f_equal.
  rewrite <- (clean_at_period (INR k / IZR fs)). f_equal.
  rewrite plus_INR, INR_to_nat, Hfs, mult_IZR by lia.
  field. apply not_0_IZR. lia.
Qed.

Lemma clean_signal_period_witness :
  ∃ t clean_signal noisy_signal,
    create_test_signal (λ n, replicate n 0) 2 1000
      = Ok (t, clean_signal, noisy_signal)
    ∧ is_Some (clean_signal !! 3%nat)
    ∧ clean_signal !! (3 + Z.to_nat 200)%nat = clean_signal !! 3%nat.
Proof.
  apply (clean_signal_period (λ n, replicate n 0) 2 1000 2000 200 3);
    [lia | lia | lra | lia].
Defined.

(** X21: filtering the noisy test signal gives the filtered clean
    signal plus 1.5 times the filtered noise, for every window size
    [N >= 1]: the filter acts on signal and noise separately. *)
Theorem filtered_noisy_signal
  (randn : nat → list R) (duration : R) (fs N : Z) :
  (∀ n, length (randn n) = n) →
  (0 ≤ py_int (IZR fs * duration))%Z →
  (1 ≤ N)%Z →
  ∃ t clean_signal noisy_signal clean_filtered noise_filtered,
    create_test_signal randn duration fs = Ok (t, clean_signal, noisy_signal)
    ∧ apply_filter N clean_signal = Ok clean_filtered
    ∧ apply_filter N (randn (length t)) = Ok noise_filtered
    ∧ apply_filter N noisy_signal = Ok (mix 1 1.5 clean_filtered noise_filtered).
Proof.
  intros Hrandn Hnum HN.
  pose proof (create_test_signal_value randn duration fs Hnum) as Hval.
  cbn zeta in Hval.
  set (n := Z.to_nat (py_int (IZR fs * duration))) in *.
  set (t := np_linspace_open duration n) in *.
  assert (length t = n) as Ht by apply np_linspace_open_length.
  assert (length (clean_at <$> t) = length (randn n)) as Hlen
    by by rewrite length_fmap, Ht, Hrandn.
  destruct (apply_filter_mix N 1 1.5 (clean_at <$> t) (randn n) HN Hlen)
    as (fc & fn & Hfc & Hfn & Hmix).
  exists t, (clean_at <$> t), (np_add (clean_at <$> t) (np_scale 1.5 (randn n))), fc, fn.
  split; [done|]. split; [done|]. rewrite Ht. split; [done|].
  by rewrite np_add_scale_mix.
Qed.

Lemma filtered_noisy_signal_witness :
  ∃ t clean_signal noisy_signal clean_filtered noise_filtered,
    create_test_signal (λ n, replicate n 0) 2 1000
      = Ok (t, clean_signal, noisy_signal)
    ∧ apply_filter 5 clean_signal = Ok clean_filtered
    ∧ apply_filter 5 (replicate (length t) 0) = Ok noise_filtered
    ∧ apply_filter 5 noisy_signal = Ok (mix 1 1.5 clean_filtered noise_filtered).
Proof.
  apply (filtered_noisy_signal (λ n, replicate n 0) 2 1000 5).
  - intros m. apply length_replicate.
  - replace (IZR 1000 * 2) with (IZR 2000) by lra. rewrite py_int_IZR. lia.
  - lia.
Defined.

(** X10: a window size of one is the identity filter: a fresh
    averager returns every signal unchanged. *)
Theorem window_one_is_identity (xs : list R) : apply_filter 1 xs = Ok xs.
Proof.
  destruct (apply_filter_outputs 1 xs ltac:(lia)) as (ys & Hys & Hlen & Hout).
  rewrite Hys. f_equal. apply list_eq. intros k.
  destruct (decide (k < length xs)%nat) as [Hk|Hk].
  - rewrite Hout by done.
    destruct (lookup_lt_is_Some_2 xs k Hk) as [x Hx]. rewrite Hx. f_equal.
    rewrite window_sum_recent. unfold recent.
    rewrite length_take_le by lia.
    replace (S k - Z.to_nat 1)%nat with k by lia.
    rewrite (drop_S _ x k) by (by rewrite lookup_take_lt by lia).
    rewrite drop_ge by (rewrite length_take_le; lia).
    rewrite py_sum_cons, py_sum_nil. lra.
  - by rewrite !lookup_ge_None_2 by lia.
Qed.

End TestSignalTheorems.

(** ** The methods on binary64 *)

Module Binary64.
Import PrimFloat.
Local Open Scope float_scope.

(* Decimal literals denote the nearest binary64 value, as in Python. *)
Set Warnings "-inexact-float".

(** The spec's scenario: window size 4 and the inputs 1 to 6. *)
Example concrete_scenario :
  ∃ self0 self',
    __init__ 4 = Ok self0
    ∧ filter_samples [1; 2; 3; 4; 5; 6] self0
      = (Ok [0.25; 0.75; 1.5; 2.5; 3.5; 4.5], self')
    ∧ filter_signal [1; 2; 3; 4; 5; 6] self0
      = (Ok [0.25; 0.75; 1.5; 2.5; 3.5; 4.5], self').
Proof.
  exists (Self 4 [0; 0; 0; 0] 0 0), (Self 4 [5; 6; 3; 4] 2 18).
  split; [|split]; vm_compute; reflexivity.
Qed.

(** A window size of one is the identity filter. *)
Example identity_filter :
  ∃ self0 self',
    __init__ 1 = Ok self0
    ∧ filter_samples [3; 0.5; 1e16; 7] self0 = (Ok [3; 0.5; 1e16; 7], self').
Proof.
  exists (Self 1 [0] 0 0), (Self 1 [7] 0 7).
  split; vm_compute; reflexivity.
Qed.

(** The unit impulse gives the impulse response, then zeros. *)
Example impulse_scenario :
  ∃ self0 h self',
    __init__ 3 = Ok self0
    ∧ get_impulse_response self0 = (Ok h, self0)
    ∧ h = [1 / 3; 1 / 3; 1 / 3]
    ∧ filter_samples [1; 0; 0; 0; 0] self0 = (Ok (h ++ [0; 0]), self').
Proof.
  exists (Self 3 [0; 0; 0] 0 0), [1 / 3; 1 / 3; 1 / 3], (Self 3 [0; 0; 0] 2 0).
  split; [|split; [|split]]; vm_compute; reflexivity.
Qed.

(** A constant input is returned up to rounding: with window size 3
    the sum of three times 0.1 is 0.30000000000000004, and a third of
    it is not 0.1 but the next binary64 value. *)
Example constant_signal_rounds :
  ∃ self0 self',
    __init__ 3 = Ok self0
    ∧ filter_samples [0.1; 0.1; 0.1; 0.1; 0.1] self0
      = (Ok [0.033333333333333333; 0.066666666666666666;
             0.10000000000000002; 0.10000000000000002; 0.10000000000000002],
         self').
Proof.
  exists (Self 3 [0; 0; 0] 0 0), (Self 3 [0.1; 0.1; 0.1] 2 0.30000000000000004).
  split; vm_compute; reflexivity.
Qed.

(** Rounding made while a large sample is in the window stays in the
    running sum, and in every later output: with window size 2 the
    last two outputs for [1e16, 1, 0, 0, 3] are -0.5 and 1, where the
    means of the last two samples are 0 and 1.5. *)
Example rounding_stays_in_the_outputs :
  apply_filter 2 [1e16; 1; 0; 0; 3] = Ok [5e15; 5e15; 0; -0.5; 1].
Proof. vm_compute. reflexivity. Qed.


(** C2 as the claim states it has the running sum equal to the sum of
    the buffer within a floating-point tolerance.  On binary64 it need
    not be: the running sum keeps the rounding error of every past
    update.  With window size 2 and the inputs [1e16, 1, 0], adding 1
    to 1e16 rounds back to 1e16, and subtracting 1e16 leaves 0, while
    the buffer holds 0 and 1: the running sum is 0, the sum of the
    buffer is 1, and they differ by more than [1e-9] of it. *)
Lemma running_sum_drifts :
  ∃ self0 ys self',
    __init__ 2 = Ok self0
    ∧ filter_samples [1e16; 1; 0] self0 = (Ok ys, self')
    ∧ buffer self' = [0; 1]
    ∧ sum self' = 0
    ∧ py_sum (buffer self') = 1
    ∧ (abs (sum self' - py_sum (buffer self'))
         <=? 1e-9 * abs (py_sum (buffer self'))) = false.
Proof.
  exists (Self 2 [0; 0] 0 0), [5e15; 5e15; 0], (Self 2 [0; 1] 1 0).
  split; [|split; [|split; [|split; [|split]]]]; vm_compute; reflexivity.
Qed.

End Binary64.
